(** * Index Array API: grid topology and face-visibility filter

    Shallow embedding of [index_array.js] (classes [Face], [Filter],
    [Surface] and the message handlers [bang], [dim], [draw_mode], [list])
    and of the filters of [example.js] ([fill], [reverse], [ring],
    [spiral]).

    Conventions of the embedding.
    - JavaScript numbers that the program computes with are vertex ids,
      loop counters and dimensions: they are modelled by [Z] (exact in a
      double below 2^53).  An arithmetic result that is not a number is
      [VNaN].
    - The loops of the source write the counters [i] and [j] without
      declaring them, so both are properties of the global object.  They
      live in [Scope], which every loop threads explicitly.
    - A [Filter] holds a reference to the [Surface] it filters.  The
      surface is kept in one place (the global [g]); the methods of
      [Filter] receive it and return its new state. *)

From stdpp Require Import base numbers list strings.

Local Open Scope Z_scope.

(** ** Values *)

(** What a mask element, a visibility flag or the result of a filter
    function can be. *)
Inductive value : Type :=
  | VUndef
  | VNaN
  | VBool (b : bool)
  | VNum (n : Z).

(** ToBoolean. *)
Definition truthy (v : value) : bool :=
  match v with
  | VUndef | VNaN => false
  | VBool b => b
  | VNum n => negb (n =? 0)
  end.

(** [1 - bit]: ToNumber on the operand, then the subtraction, which is
    exact for an integer of magnitude below 2^53. *)
Definition one_minus (bit : value) : value :=
  match bit with
  | VUndef | VNaN => VNaN
  | VBool true => VNum 0
  | VBool false => VNum 1
  | VNum n => VNum (1 - n)
  end.

(** [a % b] on integers: the remainder takes the sign of the dividend,
    and is NaN ([None]) for a zero divisor. *)
Definition js_rem (a b : Z) : option Z :=
  if b =? 0 then None else Some (Z.rem a b).

(** [arr[k]] for an index that is an array position: [undefined] out of
    range. *)
Definition js_get (arr : list value) (k : nat) : value :=
  default VUndef (arr !! k).

(** ** Global loop counters *)

Record Scope : Type := { var_i : Z; var_j : Z }.

Definition set_i (k : Z) (sc : Scope) : Scope :=
  {| var_i := k; var_j := var_j sc |}.

Definition set_j (k : Z) (sc : Scope) : Scope :=
  {| var_i := var_i sc; var_j := k |}.

(** ** Counting loops

    [for (c = lo; c < hi; c++) body] and [for (c = hi; c > lo; c--) body]
    where [c] is a global counter written through [set], and [L] holds the
    local variables of the enclosing function.  No body of the program
    assigns the counter or the bound, so the number of iterations is fixed
    on entry; the counter keeps its last value after the loop. *)
Section Loops.
Context {L : Type}.
Variable set : Z → Scope → Scope.
Variable body : Scope * L → Scope * L.

(** [n] more iterations, the counter being assigned [k] next; [delta]
    is [1] for [c++] and [-1] for [c--]. *)
Fixpoint count (delta : Z) (n : nat) (k : Z) (st : Scope * L) : Scope * L :=
  let st := (set k st.1, st.2) in
  match n with
  | O => st
  | S n' => count delta n' (k + delta) (body st)
  end.

Definition for_up (lo hi : Z) (st : Scope * L) : Scope * L :=
  count 1 (Z.to_nat (hi - lo)) lo st.

Definition for_down (hi lo : Z) (st : Scope * L) : Scope * L :=
  count (-1) (Z.to_nat (hi - lo)) hi st.
End Loops.

(** ** Constants *)

Definition QUAD : Z := 4.
Definition TRI : Z := 3.

(** ** Face *)

Module Face.
Record t : Type := new { index_array : list Z; visible : value }.

Definition set_visible (v : value) (this : t) : t :=
  {| index_array := index_array this; visible := v |}.
End Face.

(** ** JitterMatrix

    The host object the index array is handed over in.  What the program
    does with one is create it and write cells: a matrix is modelled by
    the arguments of its constructor, [new JitterMatrix(planecount, type,
    dim0, dim1)], and the calls [setcell2d(x, y, value)] it received, in
    order. *)
Record JitterMatrix : Type :=
  { jit_planecount : Z;
    jit_type : string;
    jit_dim : Z * Z;
    jit_cells : list (Z * Z * Z) }.

(** ** Surface *)

Module Surface.
(** [dim] is the two-element array [[cols, rows]]. *)
Record t : Type := new_with
  { dim : Z * Z; face_array : list Face.t; draw_mode : Z }.

(** [new Surface(dim, draw_mode)]: no face until [generate] runs. *)
Definition new (d : Z * Z) (mode : Z) : t :=
  {| dim := d; face_array := []; draw_mode := mode |}.

Definition set_dim (d : Z * Z) (this : t) : t :=
  {| dim := d; face_array := face_array this; draw_mode := draw_mode this |}.

Definition set_face_array (fa : list Face.t) (this : t) : t :=
  {| dim := dim this; face_array := fa; draw_mode := draw_mode this |}.

Definition set_draw_mode (mode : Z) (this : t) : t :=
  {| dim := dim this; face_array := face_array this; draw_mode := mode |}.

Definition face_count (this : t) : Z := Z.of_nat (length (face_array this)).

(** Local variables of the grid generators: [face_array] and [start]. *)
Definition locals : Type := list Face.t * Z.

Definition quad_cell (this : t) (st : Scope * locals) : Scope * locals :=
  let '(sc, (fa, start)) := st in
  let j := var_j sc in
  let index_array :=
    [start + j + 1; start + j; start + j + (dim this).1;
     start + j + (dim this).1 + 1] in
  (sc, (fa ++ [Face.new index_array (VNum 1)], start)).

Definition quad_stack (this : t) (st : Scope * locals) : Scope * locals :=
  let '(sc, (fa, _)) := st in
  let start := var_i sc * (dim this).1 in
  for_up set_j (quad_cell this) 0 ((dim this).1 - 1) (sc, (fa, start)).

Definition quad_grid (this : t) (sc : Scope) : t * Scope :=
  let st := for_up set_i (quad_stack this) 0 ((dim this).2 - 1) (sc, ([], 0)) in
  (set_face_array st.2.1 this, st.1).

Definition tri_near_cell (this : t) (st : Scope * locals) : Scope * locals :=
  let '(sc, (fa, start)) := st in
  let j := var_j sc in
  let index_array :=
    [start + j; start + j + (dim this).1 - 1; start + j + (dim this).1] in
  (sc, (fa ++ [Face.new index_array (VNum 1)], start)).

Definition tri_near_stack (this : t) (st : Scope * locals) : Scope * locals :=
  let '(sc, (fa, _)) := st in
  let start := var_i sc * (dim this).1 + 1 in
  for_up set_j (tri_near_cell this) 0 ((dim this).1 - 1) (sc, (fa, start)).

Definition tri_far_cell (this : t) (st : Scope * locals) : Scope * locals :=
  let '(sc, (fa, start)) := st in
  let j := var_j sc in
  let index_array :=
    [start - j - (dim this).1; start - j; start - j - (dim this).1 + 1] in
  (sc, (fa ++ [Face.new index_array (VNum 1)], start)).

Definition tri_far_stack (this : t) (st : Scope * locals) : Scope * locals :=
  let '(sc, (fa, _)) := st in
  let start := (var_i sc + 1) * (dim this).1 in
  for_down set_j (tri_far_cell this) ((dim this).1) 1 (sc, (fa, start)).

Definition tri_grid (this : t) (sc : Scope) : t * Scope :=
  let st := for_up set_i (tri_near_stack this) 0 ((dim this).2 - 1) (sc, ([], 0)) in
  let st := for_down set_i (tri_far_stack this) ((dim this).2 - 1) 0 st in
  (set_face_array st.2.1 this, st.1).

Definition generate (this : t) (sc : Scope) : t * Scope :=
  if draw_mode this =? QUAD then quad_grid this sc else tri_grid this sc.

(** The zero tuple follows the surface's draw mode, not the face. *)
Definition index_array (this : t) : list Z :=
  mjoin ((λ face : Face.t,
            if truthy (Face.visible face) then Face.index_array face
            else if draw_mode this =? QUAD then [0; 0; 0; 0] else [0; 0; 0])
         <$> face_array this).

(** One [setcell2d(i, 0, index)] per element of the index array. *)
Definition matrix (this : t) : JitterMatrix :=
  let index_array := index_array this in
  {| jit_planecount := 1;
     jit_type := "long";
     jit_dim := (Z.of_nat (length index_array), 1);
     jit_cells := imap (λ i index, (Z.of_nat i, 0, index)) index_array |}.
End Surface.

(** ** Filter *)

Module Filter.
(** The field [_surface] is a reference to the surface held by [g]: the
    methods below receive that surface and return it updated. *)
Record t : Type := new_with { mask : list value }.

Definition new : t := {| mask := [] |}.

Definition set_mask (m : list value) (this : t) : t := {| mask := m |}.

(** [forEach] visits every position of the face array; the mask is read
    at the same position, whatever its length. *)
Definition apply (this : t) (surface : Surface.t) : Surface.t :=
  Surface.set_face_array
    (imap (λ (i : nat) (face : Face.t),
             Face.set_visible (js_get (mask this) i)
               (Face.set_visible (VNum 1) face))
          (Surface.face_array surface))
    surface.

Section Generate.
(** State of the caller's closure: whatever [func] updates when it is
    called (a random generator, a log).  [func] reads the global
    counters and the surface; it does not assign them. *)
Context {U : Type}.
Definition predicate : Type := Scope → Surface.t → U → value * U.

(** Local variable [a] of [generate], with the closure state. *)
Definition locals : Type := list value * U.

(** [a.push(func())] *)
Definition push (func : predicate) (surface : Surface.t)
    (st : Scope * locals) : Scope * locals :=
  let '(sc, (a, u)) := st in
  let '(v, u') := func sc surface u in
  (sc, (a ++ [v], u')).

Definition near_stack (func : predicate) (surface : Surface.t) :=
  for_up set_j (push func surface) 0 ((Surface.dim surface).1 - 1).

Definition far_stack (func : predicate) (surface : Surface.t) :=
  for_down set_j (push func surface) ((Surface.dim surface).1) 1.

Definition generate (func : predicate) (order : value)
    (this : t) (surface : Surface.t) (sc : Scope) (u : U)
    : t * Surface.t * Scope * U :=
  let st := (sc, ([], u)) in
  let st :=
    if truthy order then
      let st :=
        for_up set_i (near_stack func surface)
          0 ((Surface.dim surface).2 - 1) st in
      if Surface.draw_mode surface =? TRI then
        for_down set_i (far_stack func surface)
          ((Surface.dim surface).2 - 1) 0 st
      else st
    else
      for_up set_i (push func surface) 0 (Surface.face_count surface) st in
  let this := set_mask st.2.1 this in
  (this, apply this surface, st.1, st.2.2).
End Generate.
End Filter.

(** ** The global [g], the message handlers and the example filters *)

(** [g.matrix] only carries the index array to the host and is left out. *)
Record Program : Type :=
  { g_draw : bool;
    g_surface : Surface.t;
    g_filter : Filter.t;
    globals : Scope }.

(** State after loading the file.  [i] and [j] do not exist yet; every
    loop assigns its counter before anything reads it, so the values
    given to them here are never observed. *)
Definition initial : Program :=
  {| g_draw := false;
     g_surface := Surface.new (20, 20) QUAD;
     g_filter := Filter.new;
     globals := {| var_i := 0; var_j := 0 |} |}.

(** What [outlet(n, ...)] sends: the matrix from outlet 0 (the message
    carries the name of the matrix, which stands for the matrix), the
    face count from outlet 1. *)
Inductive outlet_msg : Type :=
  | Outlet0_jit_matrix (m : JitterMatrix)
  | Outlet1 (n : Z).

(** Handlers of [index_array.js]. *)
Module Api.
(** A bang: the messages sent, in the order of the calls, and the new
    state.  The matrix held in [g.matrix] is freed and replaced by the one
    sent. *)
Definition bang (p : Program) : list outlet_msg * Program :=
  if g_draw p then
    ([Outlet0_jit_matrix (Surface.matrix (g_surface p));
      Outlet1 (Surface.face_count (g_surface p))],
     {| g_draw := false; g_surface := g_surface p;
        g_filter := g_filter p; globals := globals p |})
  else ([Outlet1 (Surface.face_count (g_surface p))], p).

(** Message [dim x y]; the arguments are integers. *)
Definition dim (a : list Z) (p : Program) : Program :=
  match a with
  | [a0; a1] =>
      if (0 <? a0) && (0 <? a1) then
        let '(surface, sc) :=
          Surface.generate (Surface.set_dim (a0, a1) (g_surface p)) (globals p) in
        {| g_draw := true; g_surface := surface;
           g_filter := g_filter p; globals := sc |}
      else p
  | _ => p
  end.

(** Message [draw_mode quads] or [draw_mode triangles]. *)
Definition draw_mode (mode : string) (p : Program) : Program :=
  if bool_decide (mode = "quads") || bool_decide (mode = "triangles") then
    let mode := if bool_decide (mode = "quads") then QUAD else TRI in
    let '(surface, sc) :=
      Surface.generate (Surface.set_draw_mode mode (g_surface p)) (globals p) in
    {| g_draw := true; g_surface := surface;
       g_filter := g_filter p; globals := sc |}
  else p.

(** A list message: the mask is assigned as received, then applied. *)
Definition list (a : list Z) (p : Program) : Program :=
  let filter := Filter.set_mask (VNum <$> a) (g_filter p) in
  {| g_draw := true; g_surface := Filter.apply filter (g_surface p);
     g_filter := filter; globals := globals p |}.

End Api.

(** Handlers of [example.js] ([random] draws floating-point numbers and is
    left out). *)
Module Filters.
(** [g.filter.generate(func, order); g.draw = true] for a filter function
    without state of its own. *)
Definition generate_msg (func : Filter.predicate (U := unit)) (order : value)
    (p : Program) : Program :=
  let '(filter, surface, sc, _) :=
    Filter.generate func order (g_filter p) (g_surface p) (globals p) () in
  {| g_draw := true; g_surface := surface; g_filter := filter; globals := sc |}.

Definition fill_func : Filter.predicate (U := unit) :=
  λ _ _ u, (VNum 1, u).

Definition fill : Program → Program := generate_msg fill_func VUndef.

Definition reverse (p : Program) : Program :=
  let a := one_minus <$> Filter.mask (g_filter p) in
  let filter := Filter.set_mask a (g_filter p) in
  {| g_draw := true; g_surface := Filter.apply filter (g_surface p);
     g_filter := filter; globals := globals p |}.

(** [i % count > 0] *)
Definition ring_func (count : Z) : Filter.predicate (U := unit) :=
  λ sc _ u,
    (match js_rem (var_i sc) count with
     | Some r => VBool (0 <? r)
     | None => VBool false
     end, u).

Definition ring (count : Z) : Program → Program :=
  generate_msg (ring_func count) (VBool true).

(** [i < (g.surface.dim()[0] * (i % g.surface.dim()[1])) ? 0 : 1]; the
    surface it reads is the one the filter refers to. *)
Definition spiral_func : Filter.predicate (U := unit) :=
  λ sc surface u,
    (match js_rem (var_i sc) (Surface.dim surface).2 with
     | Some r =>
         if var_i sc <? (Surface.dim surface).1 * r then VNum 0 else VNum 1
     | None => VNum 1
     end, u).

Definition spiral : Program → Program := generate_msg spiral_func VUndef.
End Filters.

(** ** Messages

    The messages the object answers, and a session: the messages received
    since the file was loaded. *)
Inductive message : Type :=
  | Bang
  | Dim (a : list Z)
  | DrawMode (mode : string)
  | List (a : list Z)
  | Fill
  | Reverse
  | Ring (count : Z)
  | Spiral.

Definition handle (m : message) (p : Program) : Program :=
  match m with
  | Bang => (Api.bang p).2
  | Dim a => Api.dim a p
  | DrawMode mode => Api.draw_mode mode p
  | List a => Api.list a p
  | Fill => Filters.fill p
  | Reverse => Filters.reverse p
  | Ring count => Filters.ring count p
  | Spiral => Filters.spiral p
  end.

Definition run (ms : list message) : Program :=
  foldl (λ p m, handle m p) initial ms.

(** Messages that set a mask and apply it. *)
Definition filter_message (m : message) : bool :=
  match m with
  | List _ | Fill | Reverse | Ring _ | Spiral => true
  | Bang | Dim _ | DrawMode _ => false
  end.

(** ** Vocabulary of the properties *)

(** Values taken by a loop counter: [n] values from [k] in steps of
    [delta]. *)
Fixpoint counter_values (delta : Z) (n : nat) (k : Z) : list Z :=
  match n with
  | O => []
  | S n' => k :: counter_values delta n' (k + delta)
  end.

(** Index tuples as the documentation of the two grids gives them, for
    stack [i] and sector [j]. *)
Definition quad_indices (cols i j : Z) : list Z :=
  let start := i * cols in
  [start + j + 1; start + j; start + j + cols; start + j + cols + 1].

Definition tri_near_indices (cols i j : Z) : list Z :=
  let start := i * cols + 1 in
  [start + j; start + j + cols - 1; start + j + cols].

Definition tri_far_indices (cols i j : Z) : list Z :=
  let start := (i + 1) * cols in
  [start - j - cols; start - j; start - j - cols + 1].

(** Near to far: [i = 0 .. rows-2], and for each [j = 0 .. cols-2]. *)
Definition near_order (cols rows : Z) : list (Z * Z) :=
  seqZ 0 (rows - 1) ≫= λ i, (λ j, (i, j)) <$> seqZ 0 (cols - 1).

(** Far to near: [i = rows-1 .. 1], and for each [j = cols .. 2]. *)
Definition far_order (cols rows : Z) : list (Z * Z) :=
  reverse (seqZ 1 (rows - 1)) ≫= λ i, (λ j, (i, j)) <$> reverse (seqZ 2 (cols - 1)).

(** A face as the generators create it: visible. *)
Definition fresh (indices : list Z) : Face.t := Face.new indices (VNum 1).

(** The face array is the one [generate] builds for the surface's current
    dimension and draw mode, whatever the visibility of its faces. *)
Definition generated (surface : Surface.t) : Prop :=
  ∀ sc, Face.index_array <$> Surface.face_array surface
        = Face.index_array <$> Surface.face_array (Surface.generate surface sc).1.

(** Width of an index tuple in a draw mode. *)
Definition width (mode : Z) : nat := if mode =? QUAD then 4%nat else 3%nat.

(** A wrapper around a filter function that logs the counters [(i, j)]
    found at each call. *)
Definition recording {U : Type} (func : Filter.predicate (U := U))
    : Filter.predicate (U := U * list (Z * Z)) :=
  λ sc surface '(u, log),
    let '(v, u') := func sc surface u in
    (v, (u', log ++ [(var_i sc, var_j sc)])).

(** One call of [func] with the counters as [sc] hold them. *)
Definition call {U : Type} (func : Filter.predicate (U := U))
    (surface : Surface.t) (l : Filter.locals (U := U)) (sc : Scope)
    : Filter.locals (U := U) :=
  (Filter.push func surface (sc, l)).2.

(** The counters as the calls of an ordered [generate] find them. *)
Definition at_cell (c : Z * Z) : Scope := {| var_i := c.1; var_j := c.2 |}.

Definition counters (sc : Scope) : Z * Z := (var_i sc, var_j sc).

Definition ordered_calls (surface : Surface.t) : list Scope :=
  let '(cols, rows) := Surface.dim surface in
  (at_cell <$> near_order cols rows)
  ++ (if Surface.draw_mode surface =? TRI
      then at_cell <$> far_order cols rows else []).

(** The counters as the calls of a plain [generate] find them: [i] counts
    the calls, [j] is whatever it was. *)
Definition plain_calls (surface : Surface.t) (sc : Scope) : list Scope :=
  (λ k, set_i k sc) <$> seqZ 0 (Surface.face_count surface).

(** What [func] returns when it is called once at each of [calls], in that
    order, its closure state passing from one call to the next. *)
Fixpoint returns {U : Type} (func : Filter.predicate (U := U))
    (surface : Surface.t) (calls : list Scope) (u : U) : list value :=
  match calls with
  | [] => []
  | sc :: calls =>
      let '(v, u') := func sc surface u in
      v :: returns func surface calls u'
  end.

(** A mask element on which [1 - bit] is exact: anything but a number of
    magnitude 2^53 or more. *)
Definition exact_bit (v : value) : Prop :=
  ∀ n, v = VNum n → - 2 ^ 53 < n < 2 ^ 53.

(** The mask agrees with the visibility of the faces: it is the mask that
    was last applied to this face array. *)
Definition applied (filter : Filter.t) (surface : Surface.t) : Prop :=
  Filter.apply filter surface = surface.

(** Vertex id of the grid point in row [r] and column [c]. *)
Definition vertex (cols r c : Z) : Z := r * cols + c.

(** Faces per cell of the grid in a draw mode, as [generate] decides. *)
Definition faces_per_cell (mode : Z) : Z := if mode =? QUAD then 1 else 2.

(** What holds of the surface throughout a session. *)
Definition well_formed (surface : Surface.t) : Prop :=
  0 < (Surface.dim surface).1 ∧ 0 < (Surface.dim surface).2
  ∧ (Surface.draw_mode surface = QUAD ∨ Surface.draw_mode surface = TRI)
  ∧ (Surface.face_array surface = [] ∨ generated surface).

(** * Loops *)

Section LoopFacts.
Context {L : Type}.
Variable set : Z → Scope → Scope.
Variable body : Scope * L → Scope * L.

Lemma counter_values_up n k : counter_values 1 n k = seqZ k (Z.of_nat n).
Proof.
  revert k. induction n as [|n IH]; intros k; [done|].
  rewrite (seqZ_cons k) by lia. cbn [counter_values]. rewrite IH.
  f_equal. f_equal; lia.
Qed.

Lemma counter_values_down n k :
  counter_values (-1) n k = reverse (seqZ (k - Z.of_nat n + 1) (Z.of_nat n)).
Proof.
  revert k. induction n as [|n IH]; intros k; [done|].
  rewrite seqZ_S, reverse_app. cbn [counter_values]. rewrite IH.
  rewrite reverse_singleton. cbn [app]. f_equal; [lia|].
  f_equal. f_equal. lia.
Qed.

Lemma for_up_values lo hi :
  counter_values 1 (Z.to_nat (hi - lo)) lo = seqZ lo (hi - lo).
Proof.
  rewrite counter_values_up. unfold seqZ. by rewrite Nat2Z.id.
Qed.

Lemma for_down_values hi lo :
  counter_values (-1) (Z.to_nat (hi - lo)) hi = reverse (seqZ (lo + 1) (hi - lo)).
Proof.
  rewrite counter_values_down.
  destruct (decide (lo ≤ hi)) as [Hle|Hgt].
  - rewrite Z2Nat.id by lia. do 2 f_equal. lia.
  - replace (Z.to_nat (hi - lo)) with O by lia.
    by rewrite (seqZ_nil (lo + 1)) by lia.
Qed.

(** A body that leaves the counters alone: the loop runs its effect on
    the locals once per counter value. *)
Lemma count_frame (step : Scope → L → L) delta :
  (∀ a b sc, set a (set b sc) = set a sc) →
  (∀ sc l, body (sc, l) = (sc, step sc l)) →
  ∀ n k sc l,
    (count set body delta n k (sc, l)).2
    = foldl (λ l k', step (set k' sc) l) l (counter_values delta n k).
Proof.
  intros Hset Hbody n.
  assert (∀ k sc sc' l, (∀ a, set a sc' = set a sc) →
            (count set body delta n k (sc', l)).2
            = foldl (λ l k', step (set k' sc) l) l (counter_values delta n k)) as H.
  { induction n as [|n IH]; intros k sc sc' l Hsc; [done|].
    cbn [count counter_values foldl fst snd]. rewrite Hbody, Hsc.
    apply IH. intros a. apply Hset. }
  intros k sc l. by apply H.
Qed.

(** A body whose effect on the locals depends on the scope through the
    loop's own counter only. *)
Lemma count_locals (get : Scope → Z) (step : Z → L → L) delta :
  (∀ k sc, get (set k sc) = k) →
  (∀ sc l, (body (sc, l)).2 = step (get sc) l) →
  ∀ n k st,
    (count set body delta n k st).2
    = foldl (λ l k', step k' l) st.2 (counter_values delta n k).
Proof.
  intros Hget Hbody n. induction n as [|n IH]; intros k st; [done|].
  cbn [count counter_values foldl]. rewrite IH.
  by rewrite Hbody, Hget.
Qed.
End LoopFacts.

(** * Lists built by nested loops *)

Lemma fmap_bind_list {A B C} (f : B → C) (g : A → list B) (l : list A) :
  f <$> (l ≫= g) = l ≫= λ x, f <$> g x.
Proof.
  induction l as [|x l IH]; [done|].
  by rewrite !bind_cons, fmap_app, IH.
Qed.

Lemma length_bind_const {A B} (g : A → list B) (l : list A) (n : nat) :
  (∀ x, length (g x) = n) → length (l ≫= g) = (length l * n)%nat.
Proof.
  intros Hg. induction l as [|x l IH]; [done|].
  rewrite bind_cons, length_app, Hg, IH. cbn [length]. lia.
Qed.

Lemma foldl_bind {A B C} (f : A → C → A) (g : B → list C) (a : A) (l : list B) :
  foldl f a (l ≫= g) = foldl (λ a x, foldl f a (g x)) a l.
Proof.
  revert a. induction l as [|x l IH]; intros a; [done|].
  by rewrite bind_cons, foldl_app, IH.
Qed.

Lemma length_near_order cols rows :
  length (near_order cols rows) = (Z.to_nat (rows - 1) * Z.to_nat (cols - 1))%nat.
Proof.
  unfold near_order. rewrite (length_bind_const _ _ (Z.to_nat (cols - 1))).
  - by rewrite length_seqZ.
  - intros i. by rewrite length_fmap, length_seqZ.
Qed.

Lemma length_far_order cols rows :
  length (far_order cols rows) = (Z.to_nat (rows - 1) * Z.to_nat (cols - 1))%nat.
Proof.
  unfold far_order. rewrite (length_bind_const _ _ (Z.to_nat (cols - 1))).
  - by rewrite length_reverse, length_seqZ.
  - intros i. by rewrite length_fmap, length_reverse, length_seqZ.
Qed.

(** * Grid generation *)

Section GridFacts.
Variable tuple : Z → Z → list Z.
Variable cell : Scope * Surface.locals → Scope * Surface.locals.
Hypothesis cell_eq : ∀ sc fa start,
  cell (sc, (fa, start)) = (sc, (fa ++ [fresh (tuple start (var_j sc))], start)).

(** The sector loop appends one face per value of [j]. *)
Lemma sector_loop delta n k sc fa start :
  (count set_j cell delta n k (sc, (fa, start))).2
  = (fa ++ ((λ j, fresh (tuple start j)) <$> counter_values delta n k), start).
Proof.
  rewrite (count_frame set_j cell
             (λ sc l, (l.1 ++ [fresh (tuple l.2 (var_j sc))], l.2)));
    [|done|by intros ? [??]; rewrite cell_eq].
  generalize (counter_values delta n k). intros js. revert fa.
  induction js as [|j js IH]; intros fa; cbn [foldl fmap list_fmap].
  - by rewrite app_nil_r.
  - cbn [fst snd set_j var_j]. rewrite IH. by rewrite <- app_assoc.
Qed.

Variable first : Z → Z.
Variable stack : Scope * Surface.locals → Scope * Surface.locals.
Variables (delta_j : Z) (n_j : nat) (k_j : Z).
Hypothesis stack_eq : ∀ sc fa start,
  stack (sc, (fa, start))
  = count set_j cell delta_j n_j k_j (sc, (fa, first (var_i sc))).

(** The stack loop appends one row of faces per value of [i]. *)
Lemma stack_loop delta n k st :
  (count set_i stack delta n k st).2.1
  = st.2.1 ++ (counter_values delta n k ≫= λ i,
                 (λ j, fresh (tuple (first i) j)) <$> counter_values delta_j n_j k_j).
Proof.
  rewrite (count_locals set_i stack var_i
             (λ i l, (l.1 ++ ((λ j, fresh (tuple (first i) j))
                                <$> counter_values delta_j n_j k_j), first i)));
    [|done|by intros ? [??]; rewrite stack_eq, sector_loop].
  generalize (counter_values delta n k). intros ks. destruct st as [sc l].
  cbn [snd]. revert l. induction ks as [|i ks IH]; intros l.
  - by rewrite app_nil_r.
  - cbn [foldl]. rewrite IH, bind_cons. cbn [fst]. by rewrite <- app_assoc.
Qed.
End GridFacts.

Lemma quad_grid_faces this sc :
  Surface.face_array (Surface.quad_grid this sc).1
  = (λ '(i, j), fresh (quad_indices (Surface.dim this).1 i j))
    <$> near_order (Surface.dim this).1 (Surface.dim this).2.
Proof.
  unfold Surface.quad_grid, for_up, near_order. cbn [fst Surface.set_face_array Surface.face_array].
  rewrite (stack_loop
             (λ start j, [start + j + 1; start + j; start + j + (Surface.dim this).1;
                          start + j + (Surface.dim this).1 + 1])
             (Surface.quad_cell this) ltac:(done)
             (λ i, i * (Surface.dim this).1) (Surface.quad_stack this)
             1 (Z.to_nat ((Surface.dim this).1 - 1 - 0)) 0 ltac:(done)).
  rewrite !for_up_values, !Z.sub_0_r, fmap_bind_list. cbn [snd fst app].
  apply list_bind_ext; [|done]. intros i.
  by rewrite <- list_fmap_compose.
Qed.

Lemma tri_grid_faces this sc :
  Surface.face_array (Surface.tri_grid this sc).1
  = ((λ '(i, j), fresh (tri_near_indices (Surface.dim this).1 i j))
       <$> near_order (Surface.dim this).1 (Surface.dim this).2)
    ++ ((λ '(i, j), fresh (tri_far_indices (Surface.dim this).1 i j))
          <$> far_order (Surface.dim this).1 (Surface.dim this).2).
Proof.
  unfold Surface.tri_grid, for_up, for_down, near_order, far_order.
  cbn [fst Surface.set_face_array Surface.face_array].
  rewrite (stack_loop
             (λ start j, [start - j - (Surface.dim this).1; start - j;
                          start - j - (Surface.dim this).1 + 1])
             (Surface.tri_far_cell this) ltac:(done)
             (λ i, (i + 1) * (Surface.dim this).1) (Surface.tri_far_stack this)
             (-1) (Z.to_nat ((Surface.dim this).1 - 1)) (Surface.dim this).1 ltac:(done)).
  rewrite (stack_loop
             (λ start j, [start + j; start + j + (Surface.dim this).1 - 1;
                          start + j + (Surface.dim this).1])
             (Surface.tri_near_cell this) ltac:(done)
             (λ i, i * (Surface.dim this).1 + 1) (Surface.tri_near_stack this)
             1 (Z.to_nat ((Surface.dim this).1 - 1 - 0)) 0 ltac:(done)).
  rewrite !for_up_values, !for_down_values, !Z.sub_0_r, !fmap_bind_list.
  cbn [snd fst app]. replace (0 + 1) with 1 by done. replace (1 + 1) with 2 by done.
  f_equal; (apply list_bind_ext; [|done]); intros i;
    by rewrite <- list_fmap_compose.
Qed.

(** Position [a * n + b] of a list made of rows of length [n] is position
    [b] of row [a]. *)
Lemma lookup_rows {A B} (g : A → list B) (l : list A) (n a b : nat) :
  (∀ x, length (g x) = n) → (b < n)%nat →
  (l ≫= g) !! (a * n + b)%nat = l !! a ≫= λ x, g x !! b.
Proof.
  intros Hg Hb. revert a. induction l as [|x l IH]; intros a; [done|].
  rewrite bind_cons. destruct a as [|a].
  - rewrite lookup_app_l by (rewrite Hg; lia). done.
  - rewrite lookup_app_r by (rewrite Hg; lia). rewrite Hg.
    replace (S a * n + b - n)%nat with (a * n + b)%nat by lia. apply IH.
Qed.

Lemma reverse_seqZ lo n :
  reverse (seqZ lo n) = (λ x, lo + n - 1 - x) <$> seqZ 0 n.
Proof.
  destruct (decide (0 ≤ n)) as [Hn|Hn]; [|by rewrite !seqZ_nil by lia].
  rewrite <- (Z2Nat.id n) by done. generalize (Z.to_nat n). clear Hn. intros m.
  induction m as [|m IH]; [done|].
  rewrite (seqZ_S lo), reverse_app, reverse_singleton, IH.
  rewrite (seqZ_cons 0 (Z.of_nat (S m))) by lia.
  cbn [fmap list_fmap app]. f_equal; [lia|].
  replace (Z.pred (Z.of_nat (S m))) with (Z.of_nat m) by lia.
  rewrite <- (fmap_add_seqZ 1 0). rewrite <- list_fmap_compose.
  apply list_fmap_ext. intros ? x _. cbn. lia.
Qed.

Lemma lookup_grid_up {B} (f : Z → Z → B) (m n i j : Z) :
  0 ≤ i < m → 0 ≤ j < n →
  (seqZ 0 m ≫= λ i, f i <$> seqZ 0 n) !! Z.to_nat (i * n + j) = Some (f i j).
Proof.
  intros Hi Hj.
  replace (Z.to_nat (i * n + j)) with (Z.to_nat i * Z.to_nat n + Z.to_nat j)%nat by lia.
  rewrite (lookup_rows _ _ (Z.to_nat n));
    [|by intros; rewrite length_fmap, length_seqZ|lia].
  rewrite lookup_seqZ_lt by lia. cbn [mbind option_bind].
  rewrite list_lookup_fmap, lookup_seqZ_lt by lia. cbn.
  do 2 f_equal; lia.
Qed.

Lemma lookup_grid_down {B} (f : Z → Z → B) (lo_i m lo_j n i j : Z) :
  lo_i ≤ i < lo_i + m → lo_j ≤ j < lo_j + n →
  (reverse (seqZ lo_i m) ≫= λ i, f i <$> reverse (seqZ lo_j n))
    !! Z.to_nat ((lo_i + m - 1 - i) * n + (lo_j + n - 1 - j)) = Some (f i j).
Proof.
  intros Hi Hj. rewrite !reverse_seqZ, list_fmap_bind.
  rewrite (list_bind_ext _ (λ a, (λ b, f (lo_i + m - 1 - a) (lo_j + n - 1 - b))
                                   <$> seqZ 0 n) _ (seqZ 0 m));
    [|by intros a; cbn; rewrite <- list_fmap_compose|done].
  rewrite (lookup_grid_up (λ a b, f (lo_i + m - 1 - a) (lo_j + n - 1 - b))) by lia.
  do 2 f_equal; lia.
Qed.

(** * The claims *)

(** C1. For a surface of dimension [(cols, rows)] with [cols >= 2],
    [rows >= 2] and draw mode QUAD, generation runs [quad_grid], which
    produces exactly [(rows-1)*(cols-1)] faces, ordered by stack
    [i = 0 .. rows-2] and then by sector [j = 0 .. cols-2], the face of
    [(i, j)] having the index tuple
    [i*cols+j+1, i*cols+j, i*cols+j+cols, i*cols+j+cols+1]; for dimension
    [(3, 3)] the index array, every face being visible, is
    [1,0,3,4, 2,1,4,5, 4,3,6,7, 5,4,7,8]. *)
Theorem quad_grid_topology (this : Surface.t) (sc : Scope) (cols rows : Z) :
  Surface.dim this = (cols, rows) → 2 ≤ cols → 2 ≤ rows →
  Surface.draw_mode this = QUAD →
  let surface := (Surface.generate this sc).1 in
  let faces := Surface.face_array surface in
  surface = (Surface.quad_grid this sc).1
  ∧ faces = (seqZ 0 (rows - 1) ≫= λ i,
               (λ j, fresh [i * cols + j + 1; i * cols + j;
                            i * cols + j + cols; i * cols + j + cols + 1])
               <$> seqZ 0 (cols - 1))
  ∧ Z.of_nat (length faces) = (rows - 1) * (cols - 1)
  ∧ (∀ i j, 0 ≤ i < rows - 1 → 0 ≤ j < cols - 1 →
       faces !! Z.to_nat (i * (cols - 1) + j)
       = Some (fresh [i * cols + j + 1; i * cols + j;
                      i * cols + j + cols; i * cols + j + cols + 1]))
  ∧ (cols = 3 → rows = 3 →
       Surface.index_array surface = [1;0;3;4; 2;1;4;5; 4;3;6;7; 5;4;7;8]).
Proof.
  intros Hdim Hcols Hrows Hmode surface faces.
  assert (surface = (Surface.quad_grid this sc).1) as Hgen.
  { unfold surface, Surface.generate. by rewrite Hmode. }
  assert (faces = (seqZ 0 (rows - 1) ≫= λ i,
               (λ j, fresh [i * cols + j + 1; i * cols + j;
                            i * cols + j + cols; i * cols + j + cols + 1])
               <$> seqZ 0 (cols - 1))) as Hfaces.
  { unfold faces. rewrite Hgen, quad_grid_faces, Hdim. cbn [fst snd].
    unfold near_order. rewrite fmap_bind_list.
    apply list_bind_ext; [|done]. intros i. by rewrite <- list_fmap_compose. }
  split_and!; [done|done| | |].
  - rewrite Hfaces, (length_bind_const _ _ (Z.to_nat (cols - 1))).
    + rewrite length_seqZ. lia.
    + intros i. by rewrite length_fmap, length_seqZ.
  - intros i j Hi Hj. rewrite Hfaces.
    by rewrite (lookup_grid_up (λ i j, fresh _)).
  - intros -> ->. unfold Surface.index_array. fold faces. by rewrite Hfaces.
Qed.

Lemma quad_grid_topology_witness :
  Surface.index_array
    (Surface.generate (Surface.new (3, 3) QUAD) {| var_i := 0; var_j := 0 |}).1
  = [1;0;3;4; 2;1;4;5; 4;3;6;7; 5;4;7;8].
Proof.
  refine (proj2 (proj2 (proj2 (proj2
    (quad_grid_topology (Surface.new (3, 3) QUAD) {| var_i := 0; var_j := 0 |}
       3 3 _ _ _ _)))) _ _); [reflexivity|lia|lia|reflexivity|reflexivity|reflexivity].
Defined.

(** C2. For a surface of dimension [(cols, rows)] with [cols >= 2],
    [rows >= 2] and draw mode TRI, generation runs [tri_grid], which
    produces exactly [2*(rows-1)*(cols-1)] faces in two passes: first, for
    [i = 0 .. rows-2] and [j = 0 .. cols-2], with [start = i*cols + 1], the
    triangle [start+j, start+j+cols-1, start+j+cols]; then, for
    [i = rows-1 .. 1] and [j = cols .. 2], with [start = (i+1)*cols], the
    triangle [start-j-cols, start-j, start-j-cols+1]; for dimension
    [(3, 3)] the first face is [1, 3, 4]. *)
Theorem tri_grid_topology (this : Surface.t) (sc : Scope) (cols rows : Z) :
  Surface.dim this = (cols, rows) → 2 ≤ cols → 2 ≤ rows →
  Surface.draw_mode this = TRI →
  let surface := (Surface.generate this sc).1 in
  let faces := Surface.face_array surface in
  let near i j := let start := i * cols + 1 in
    fresh [start + j; start + j + cols - 1; start + j + cols] in
  let far i j := let start := (i + 1) * cols in
    fresh [start - j - cols; start - j; start - j - cols + 1] in
  surface = (Surface.tri_grid this sc).1
  ∧ faces = (seqZ 0 (rows - 1) ≫= λ i, near i <$> seqZ 0 (cols - 1))
            ++ (reverse (seqZ 1 (rows - 1)) ≫= λ i,
                  far i <$> reverse (seqZ 2 (cols - 1)))
  ∧ Z.of_nat (length faces) = 2 * (rows - 1) * (cols - 1)
  ∧ (∀ i j, 0 ≤ i < rows - 1 → 0 ≤ j < cols - 1 →
       faces !! Z.to_nat (i * (cols - 1) + j) = Some (near i j))
  ∧ (∀ i j, 1 ≤ i ≤ rows - 1 → 2 ≤ j ≤ cols →
       faces !! Z.to_nat ((rows - 1) * (cols - 1)
                          + (rows - 1 - i) * (cols - 1) + (cols - j))
       = Some (far i j))
  ∧ (cols = 3 → rows = 3 → Face.index_array <$> faces !! 0%nat = Some [1; 3; 4]).
Proof.
  intros Hdim Hcols Hrows Hmode surface faces near far.
  assert (surface = (Surface.tri_grid this sc).1) as Hgen.
  { unfold surface, Surface.generate. by rewrite Hmode. }
  set (pass1 := seqZ 0 (rows - 1) ≫= λ i, near i <$> seqZ 0 (cols - 1)).
  set (pass2 := reverse (seqZ 1 (rows - 1)) ≫= λ i,
                  far i <$> reverse (seqZ 2 (cols - 1))).
  assert (length pass1 = Z.to_nat ((rows - 1) * (cols - 1))) as Hlen1.
  { unfold pass1. rewrite (length_bind_const _ _ (Z.to_nat (cols - 1))).
    - rewrite length_seqZ. by rewrite Z2Nat.inj_mul by lia.
    - intros i. by rewrite length_fmap, length_seqZ. }
  assert (length pass2 = Z.to_nat ((rows - 1) * (cols - 1))) as Hlen2.
  { unfold pass2. rewrite (length_bind_const _ _ (Z.to_nat (cols - 1))).
    - rewrite length_reverse, length_seqZ. by rewrite Z2Nat.inj_mul by lia.
    - intros i. by rewrite length_fmap, length_reverse, length_seqZ. }
  assert (faces = pass1 ++ pass2) as Hfaces.
  { unfold faces. rewrite Hgen, tri_grid_faces, Hdim. cbn [fst snd].
    unfold near_order, far_order, pass1, pass2. rewrite !fmap_bind_list.
    f_equal; (apply list_bind_ext; [|done]); intros i;
      by rewrite <- list_fmap_compose. }
  split_and!; [done|done| | | |].
  - rewrite Hfaces, length_app, Hlen1, Hlen2.
    assert (0 ≤ (rows - 1) * (cols - 1)) by nia. lia.
  - intros i j Hi Hj. rewrite Hfaces, lookup_app_l by (rewrite Hlen1; nia).
    unfold pass1. by rewrite (lookup_grid_up near).
  - intros i j Hi Hj. rewrite Hfaces, lookup_app_r by (rewrite Hlen1; nia).
    rewrite Hlen1.
    replace (Z.to_nat ((rows - 1) * (cols - 1) + (rows - 1 - i) * (cols - 1)
                       + (cols - j)) - Z.to_nat ((rows - 1) * (cols - 1)))%nat
      with (Z.to_nat ((1 + (rows - 1) - 1 - i) * (cols - 1)
                      + (2 + (cols - 1) - 1 - j))) by nia.
    unfold pass2. by rewrite (lookup_grid_down far) by lia.
  - intros -> ->. by rewrite Hfaces.
Qed.

Lemma tri_grid_topology_witness :
  Face.index_array
    <$> Surface.face_array
          (Surface.generate (Surface.new (3, 3) TRI) {| var_i := 0; var_j := 0 |}).1
        !! 0%nat
  = Some [1; 3; 4].
Proof.
  refine (proj2 (proj2 (proj2 (proj2 (proj2
    (tri_grid_topology (Surface.new (3, 3) TRI) {| var_i := 0; var_j := 0 |}
       3 3 _ _ _ _))))) _ _); [reflexivity|lia|lia|reflexivity|reflexivity|reflexivity].
Defined.

(** * Filter *)

Lemma apply_faces (filter : Filter.t) (surface : Surface.t) :
  Surface.face_array (Filter.apply filter surface)
  = imap (λ k face, Face.new (Face.index_array face) (js_get (Filter.mask filter) k))
         (Surface.face_array surface).
Proof. done. Qed.

Lemma apply_indices (filter : Filter.t) (surface : Surface.t) :
  Face.index_array <$> Surface.face_array (Filter.apply filter surface)
  = Face.index_array <$> Surface.face_array surface.
Proof.
  apply list_eq. intros k.
  rewrite !list_lookup_fmap, apply_faces, list_lookup_imap.
  by destruct (Surface.face_array surface !! k).
Qed.

Lemma apply_twice (filter : Filter.t) (surface : Surface.t) :
  Filter.apply filter (Filter.apply filter surface) = Filter.apply filter surface.
Proof.
  unfold Filter.apply at 1 3. rewrite apply_faces.
  unfold Surface.set_face_array. cbn [Surface.dim Surface.draw_mode]. f_equal.
  apply list_eq. intros k. rewrite !list_lookup_imap.
  by destruct (Surface.face_array surface !! k).
Qed.

Section GenerateFacts.
Context {U : Type}.
Variable func : Filter.predicate (U := U).
Variable surface : Surface.t.

Lemma push_eq sc l :
  Filter.push func surface (sc, l) = (sc, call func surface l sc).
Proof.
  unfold call, Filter.push. destruct l as [a u].
  by destruct (func sc surface u).
Qed.

(** A sector loop of [generate] calls [func] once per value of [j]. *)
Lemma generate_sectors delta n k sc l :
  (count set_j (Filter.push func surface) delta n k (sc, l)).2
  = foldl (call func surface) l
      ((λ j, at_cell (var_i sc, j)) <$> counter_values delta n k).
Proof.
  rewrite (count_frame set_j _ (λ sc l, call func surface l sc));
    [|done|apply push_eq].
  by rewrite foldl_fmap.
Qed.

(** A pass of [generate] calls [func] once per cell, stack by stack. *)
Lemma generate_pass stack delta_j n_j k_j delta n k st :
  (∀ st, stack st = count set_j (Filter.push func surface) delta_j n_j k_j st) →
  (count set_i stack delta n k st).2
  = foldl (call func surface) st.2
      (at_cell <$> (counter_values delta n k ≫= λ i,
                      (λ j, (i, j)) <$> counter_values delta_j n_j k_j)).
Proof.
  intros Hstack.
  rewrite (count_locals set_i stack var_i
             (λ i l, foldl (call func surface) l
                       ((λ j, at_cell (i, j)) <$> counter_values delta_j n_j k_j)));
    [|done|by intros sc l; rewrite Hstack, generate_sectors].
  rewrite fmap_bind_list, foldl_bind.
  generalize (counter_values delta n k). intros ks. generalize st.2. intros l.
  revert l. induction ks as [|i ks IH]; intros l; [done|].
  cbn [foldl]. rewrite IH. by rewrite <- list_fmap_compose.
Qed.

(** [generate] calls [func] at the counters listed by [ordered_calls] or
    [plain_calls], assigns the values returned as the mask and applies
    it. *)
Lemma generate_calls order this sc u :
  let calls := if truthy order then ordered_calls surface
               else plain_calls surface sc in
  let l := foldl (call func surface) ([], u) calls in
  let r := Filter.generate func order this surface sc u in
  r.1.1.1 = Filter.set_mask l.1 this
  ∧ r.1.1.2 = Filter.apply (Filter.set_mask l.1 this) surface
  ∧ r.2 = l.2.
Proof.
  intros calls l r.
  assert (∃ st : Scope * Filter.locals,
            r = (Filter.set_mask st.2.1 this,
                 Filter.apply (Filter.set_mask st.2.1 this) surface, st.1, st.2.2)
            ∧ st.2 = l) as (st & -> & Hst).
  { unfold r, l, calls, Filter.generate. eexists. split; [reflexivity|].
    destruct (truthy order).
    - unfold ordered_calls, Filter.near_stack, Filter.far_stack.
      destruct (Surface.dim surface) as [cols rows].
      cbn [fst snd]. rewrite foldl_app. unfold for_up, for_down.
      destruct (Surface.draw_mode surface =? TRI).
      + rewrite (generate_pass _ (-1) (Z.to_nat (cols - 1)) cols) by done.
        rewrite (generate_pass _ 1 (Z.to_nat (cols - 1 - 0)) 0) by done.
        rewrite !for_up_values, !for_down_values, !Z.sub_0_r. done.
      + rewrite (generate_pass _ 1 (Z.to_nat (cols - 1 - 0)) 0) by done.
        rewrite !for_up_values, !Z.sub_0_r. done.
    - unfold plain_calls, for_up.
      rewrite (count_frame set_i _ (λ sc l, call func surface l sc));
        [|done|apply push_eq].
      by rewrite for_up_values, Z.sub_0_r, foldl_fmap. }
  by rewrite <- Hst.
Qed.

(** Every call appends one element to the mask under construction. *)
Lemma calls_length (calls : list Scope) l :
  length (foldl (call func surface) l calls).1 = (length l.1 + length calls)%nat.
Proof.
  revert l. induction calls as [|sc calls IH]; intros l; [cbn; lia|].
  cbn [foldl]. rewrite IH. destruct l as [a u]. unfold call, Filter.push.
  destruct (func sc surface u). cbn. rewrite length_app. cbn. lia.
Qed.

(** The recording wrapper logs the counters of every call, in order. *)
Lemma calls_recorded (calls : list Scope) a u log :
  (foldl (call (recording func) surface) (a, (u, log)) calls).2.2
  = log ++ (counters <$> calls).
Proof.
  revert a u log. induction calls as [|sc calls IH]; intros a u log.
  - by rewrite app_nil_r.
  - cbn [foldl]. unfold call at 2, Filter.push, recording.
    destruct (func sc surface u) as [v u']. cbn [snd]. rewrite IH.
    by rewrite <- app_assoc.
Qed.

(** The mask under construction receives, at its end and in order, what
    the calls return. *)
Lemma calls_returns (calls : list Scope) a u :
  (foldl (call func surface) (a, u) calls).1 = a ++ returns func surface calls u.
Proof.
  revert a u. induction calls as [|sc calls IH]; intros a u.
  - by rewrite app_nil_r.
  - cbn [foldl returns]. unfold call at 2, Filter.push.
    destruct (func sc surface u) as [v u']. cbn [snd]. rewrite IH.
    by rewrite <- app_assoc.
Qed.

Lemma calls_recording_returns (calls : list Scope) a u log :
  (foldl (call (recording func) surface) (a, (u, log)) calls).1
  = a ++ returns func surface calls u.
Proof.
  revert a u log. induction calls as [|sc calls IH]; intros a u log.
  - by rewrite app_nil_r.
  - cbn [foldl returns]. unfold call at 2, Filter.push, recording.
    destruct (func sc surface u) as [v u']. cbn [snd]. rewrite IH.
    by rewrite <- app_assoc.
Qed.
End GenerateFacts.

Lemma counters_ordered_calls (surface : Surface.t) cols rows :
  Surface.dim surface = (cols, rows) →
  counters <$> ordered_calls surface
  = near_order cols rows
    ++ (if Surface.draw_mode surface =? TRI then far_order cols rows else []).
Proof.
  intros Hdim. unfold ordered_calls. rewrite Hdim, fmap_app.
  assert (∀ l : list (Z * Z), counters <$> (at_cell <$> l) = l) as Hid.
  { intros l. transitivity (id <$> l); [|apply list_fmap_id].
    rewrite <- list_fmap_compose. apply list_fmap_ext. by intros ? [??] _. }
  rewrite Hid. by destruct (_ =? TRI); [rewrite Hid|].
Qed.

(** Index tuples of a generated face array, in the order of the passes. *)
Lemma generated_indices (surface : Surface.t) cols rows :
  Surface.dim surface = (cols, rows) → generated surface →
  Face.index_array <$> Surface.face_array surface
  = if Surface.draw_mode surface =? QUAD
    then (λ '(i, j), quad_indices cols i j) <$> near_order cols rows
    else ((λ '(i, j), tri_near_indices cols i j) <$> near_order cols rows)
         ++ ((λ '(i, j), tri_far_indices cols i j) <$> far_order cols rows).
Proof.
  intros Hdim Hgen. rewrite (Hgen {| var_i := 0; var_j := 0 |}).
  unfold Surface.generate. destruct (_ =? QUAD).
  - rewrite quad_grid_faces, Hdim, <- list_fmap_compose.
    apply list_fmap_ext. by intros ? [??] _.
  - rewrite tri_grid_faces, Hdim, fmap_app, <- !list_fmap_compose.
    f_equal; apply list_fmap_ext; by intros ? [??] _.
Qed.

Lemma apply_lookup (filter : Filter.t) (surface : Surface.t) k face :
  Surface.face_array (Filter.apply filter surface) !! k = Some face →
  ∃ face0, Surface.face_array surface !! k = Some face0
           ∧ face = Face.new (Face.index_array face0) (js_get (Filter.mask filter) k).
Proof.
  rewrite apply_faces, list_lookup_imap.
  destruct (Surface.face_array surface !! k) as [face0|]; [|done].
  intros [= <-]. by exists face0.
Qed.

Lemma apply_face_count (filter : Filter.t) (surface : Surface.t) :
  Surface.face_count (Filter.apply filter surface) = Surface.face_count surface.
Proof. unfold Surface.face_count. by rewrite apply_faces, length_imap. Qed.

(** C3. For a surface of dimension [(cols, rows)] with [cols >= 2] and
    [rows >= 2] whose face array was generated for its draw mode (QUAD or
    TRI), [generate(fn, true)] calls [fn] exactly [face_count()] times:
    once per cell of the near-to-far traversal, which is
    [(rows-1)*(cols-1)] calls, and for TRI as many again in the far-to-near
    traversal.  The mask has length [face_count()], its element [k] is
    the value the [k]-th call returned and the visibility that [apply]
    writes onto face [k], and the counters [(i, j)] seen by the [k]-th
    call are those for which the surface generated face [k]. *)
Theorem generate_in_face_order {U : Type} (func : Filter.predicate (U := U))
    (this : Filter.t) (surface : Surface.t) (sc : Scope) (u : U) (cols rows : Z) :
  Surface.dim surface = (cols, rows) → 2 ≤ cols → 2 ≤ rows →
  Surface.draw_mode surface = QUAD ∨ Surface.draw_mode surface = TRI →
  generated surface →
  let r := Filter.generate (recording func) (VBool true) this surface sc (u, []) in
  let mask := Filter.mask r.1.1.1 in
  let faces := Surface.face_array r.1.1.2 in
  let log := r.2.2 in
  let n := (rows - 1) * (cols - 1) in
  Z.of_nat (length log) = Surface.face_count surface
  ∧ log = near_order cols rows
          ++ (if Surface.draw_mode surface =? TRI then far_order cols rows else [])
  ∧ Z.of_nat (length (near_order cols rows)) = n
  ∧ Z.of_nat (length (far_order cols rows)) = n
  ∧ Z.of_nat (length mask) = Surface.face_count surface
  ∧ length faces = length (Surface.face_array surface)
  ∧ (∀ k face, faces !! k = Some face → mask !! k = Some (Face.visible face))
  ∧ (Surface.draw_mode surface = QUAD →
       Face.index_array <$> faces = (λ '(i, j), quad_indices cols i j) <$> log)
  ∧ (Surface.draw_mode surface = TRI →
       Face.index_array <$> faces
       = ((λ '(i, j), tri_near_indices cols i j) <$> take (Z.to_nat n) log)
         ++ ((λ '(i, j), tri_far_indices cols i j) <$> drop (Z.to_nat n) log))
  ∧ mask = returns func surface (at_cell <$> log) u
  ∧ Filter.mask (Filter.generate func (VBool true) this surface sc u).1.1.1 = mask
  ∧ (∀ k face, faces !! k = Some face →
       returns func surface (at_cell <$> log) u !! k = Some (Face.visible face)).
Proof.
  intros Hdim Hcols Hrows Hmode Hgen r mask faces log n.
  destruct (generate_calls (recording func) surface (VBool true) this sc (u, []))
    as (Hfilter & Hsurface & Hstate).
  cbn [truthy] in Hfilter, Hsurface, Hstate. fold r in Hfilter, Hsurface, Hstate.
  set (l := foldl (call (recording func) surface) ([], (u, [])) (ordered_calls surface))
    in Hfilter, Hsurface, Hstate.
  assert (log = near_order cols rows
                ++ (if Surface.draw_mode surface =? TRI
                    then far_order cols rows else [])) as Hlog.
  { unfold log. rewrite Hstate. unfold l.
    by rewrite calls_recorded, (counters_ordered_calls _ cols rows). }
  assert (Z.of_nat (length (near_order cols rows)) = n) as Hnear.
  { rewrite length_near_order. unfold n. nia. }
  assert (Z.of_nat (length (far_order cols rows)) = n) as Hfar.
  { rewrite length_far_order. unfold n. nia. }
  pose proof (generated_indices surface cols rows Hdim Hgen) as Hidx.
  assert (Face.index_array <$> faces = Face.index_array <$> Surface.face_array surface)
    as Hfaces.
  { unfold faces. rewrite Hsurface. apply apply_indices. }
  assert (length faces = length (Surface.face_array surface)) as Hcount.
  { by rewrite <- (length_fmap Face.index_array), Hfaces, length_fmap. }
  assert (Z.of_nat (length log) = Surface.face_count surface) as Hcalls.
  { unfold Surface.face_count.
    rewrite <- (length_fmap Face.index_array (Surface.face_array surface)), Hidx, Hlog.
    destruct Hmode as [-> | ->]; cbn [Z.eqb Pos.eqb QUAD TRI];
      rewrite ?length_app, ?length_fmap; cbn [length]; lia. }
  assert (length mask = length log) as Hmask.
  { unfold mask, log. rewrite Hfilter, Hstate. cbn [Filter.mask Filter.set_mask].
    unfold l. rewrite calls_length, calls_recorded. cbn [fst length app].
    by rewrite length_fmap. }
  assert (∀ k face, faces !! k = Some face → mask !! k = Some (Face.visible face))
    as Hvisible.
  { intros k face Hk. unfold faces in Hk. rewrite Hsurface in Hk.
    apply apply_lookup in Hk as (face0 & Hk0 & ->). cbn [Face.visible].
    unfold js_get. fold mask in Hfilter.
    assert (Filter.mask (Filter.set_mask l.1 this) = mask) as ->.
    { unfold mask. by rewrite Hfilter. }
    apply lookup_lt_Some in Hk0.
    destruct (lookup_lt_is_Some_2 mask k) as [v ->]; [|done].
    unfold Surface.face_count in Hcalls. lia. }
  assert (at_cell <$> log = ordered_calls surface) as Hcells.
  { unfold log. rewrite Hstate. unfold l. rewrite calls_recorded. cbn [app].
    rewrite <- list_fmap_compose.
    transitivity (id <$> ordered_calls surface); [|apply list_fmap_id].
    apply list_fmap_ext. by intros ? [??] _. }
  assert (mask = returns func surface (at_cell <$> log) u) as Hreturns.
  { rewrite Hcells. unfold mask. rewrite Hfilter. cbn [Filter.mask Filter.set_mask].
    unfold l. by rewrite calls_recording_returns. }
  split_and!; [done|done|done|done| |done|done| | |done| |].
  - by rewrite Hmask.
  - intros Hq. rewrite Hfaces, Hidx, Hlog, Hq. cbn [Z.eqb Pos.eqb QUAD TRI].
    by rewrite app_nil_r.
  - intros Ht. rewrite Hfaces, Hidx, Hlog, Ht. cbn [Z.eqb Pos.eqb QUAD TRI].
    rewrite take_app_length', drop_app_length' by lia. done.
  - rewrite Hreturns, Hcells.
    destruct (generate_calls func surface (VBool true) this sc u) as (Hplain & _ & _).
    cbn [truthy] in Hplain. rewrite Hplain. cbn [Filter.mask Filter.set_mask].
    by rewrite calls_returns.
  - intros k face Hk. rewrite <- Hreturns. by apply Hvisible.
Qed.

Lemma generate_in_face_order_witness :
  let sc := {| var_i := 0; var_j := 0 |} in
  let surface := (Surface.generate (Surface.new (3, 3) TRI) sc).1 in
  let r := Filter.generate (recording (Filters.ring_func 2)) (VBool true)
             Filter.new surface sc ((), []) in
  r.2.2 = near_order 3 3 ++ far_order 3 3
  ∧ Filter.mask r.1.1.1
    = [VBool false; VBool false; VBool true; VBool true;
       VBool false; VBool false; VBool true; VBool true].
Proof.
  intros sc surface r.
  assert (Surface.dim surface = (3, 3)) as Hdim by reflexivity.
  assert (2 ≤ 3) as Hle by lia.
  assert (Surface.draw_mode surface = QUAD ∨ Surface.draw_mode surface = TRI)
    as Hmode by (right; reflexivity).
  assert (generated surface) as Hgen by (intros sc'; reflexivity).
  destruct (generate_in_face_order (Filters.ring_func 2) Filter.new surface sc ()
              3 3 Hdim Hle Hle Hmode Hgen)
    as (_ & Hlog & _ & _ & _ & _ & _ & _ & _ & Hreturns & _).
  split; [exact Hlog|].
  fold r in Hreturns. rewrite Hreturns. reflexivity.
Defined.

(** * Index array *)

Lemma length_join_const {A} (ls : list (list A)) (n : nat) :
  Forall (λ l, length l = n) ls → length (mjoin ls) = (length ls * n)%nat.
Proof.
  induction 1 as [|l ls Hl _ IH]; [done|].
  change (mjoin (l :: ls)) with (l ++ mjoin ls).
  rewrite length_app, Hl, IH. cbn [length]. lia.
Qed.

Lemma zero_tuple (mode : Z) :
  (if mode =? QUAD then [0; 0; 0; 0] else [0; 0; 0]) = replicate (width mode) 0.
Proof. unfold width. by destruct (mode =? QUAD). Qed.

(** Every face of a generated array has the width of the draw mode. *)
Lemma generated_widths (surface : Surface.t) :
  generated surface →
  Forall (λ face, length (Face.index_array face) = width (Surface.draw_mode surface))
         (Surface.face_array surface).
Proof.
  intros Hgen. destruct (Surface.dim surface) as [cols rows] eqn:Hdim.
  pose proof (generated_indices surface cols rows Hdim Hgen) as Hidx.
  assert (Forall (λ t : list Z, length t = width (Surface.draw_mode surface))
                 (Face.index_array <$> Surface.face_array surface)) as Hall.
  { rewrite Hidx. unfold width. destruct (_ =? QUAD).
    - apply Forall_fmap, Forall_forall. by intros [??] _.
    - apply Forall_app; split; apply Forall_fmap, Forall_forall; by intros [??] _. }
  by apply Forall_fmap in Hall.
Qed.

(** C4. For a surface whose face array was generated for its draw mode,
    and for every assignment [flags] of visibility to its faces,
    [index_array()] is the concatenation, in face order, of the index
    tuple of each visible face and of a zero tuple of the same width for
    each hidden face; its length is [face_count() * width] with width 4
    for QUAD and 3 for TRI, whatever the flags. *)
Theorem index_array_layout (surface : Surface.t) (flags : nat → value) :
  generated surface →
  let faces := Surface.face_array surface in
  let w := if Surface.draw_mode surface =? QUAD then 4%nat else 3%nat in
  let flagged :=
    Surface.set_face_array (imap (λ k, Face.set_visible (flags k)) faces) surface in
  Surface.index_array flagged
  = mjoin (imap (λ k face, if truthy (flags k) then Face.index_array face
                           else replicate w 0) faces)
  ∧ Surface.face_count flagged = Surface.face_count surface
  ∧ Z.of_nat (length (Surface.index_array flagged))
    = Surface.face_count surface * Z.of_nat w.
Proof.
  intros Hgen faces w flagged. fold (width (Surface.draw_mode surface)) in w.
  assert (Surface.index_array flagged
          = mjoin (imap (λ k face, if truthy (flags k) then Face.index_array face
                                   else replicate w 0) faces)) as Hlayout.
  { unfold Surface.index_array, flagged.
    cbn [Surface.set_face_array Surface.face_array Surface.draw_mode].
    rewrite fmap_imap. f_equal. apply imap_ext. intros k face _.
    cbn [compose Face.set_visible Face.visible Face.index_array].
    by rewrite zero_tuple. }
  split_and!; [done| |].
  - unfold Surface.face_count, flagged. cbn [Surface.set_face_array Surface.face_array].
    by rewrite length_imap.
  - rewrite Hlayout, (length_join_const _ w).
    + rewrite length_imap. unfold Surface.face_count. fold faces. lia.
    + apply Forall_forall. intros t Ht.
      apply list_elem_of_lookup in Ht as [k Hk].
      rewrite list_lookup_imap in Hk.
      destruct (faces !! k) as [face|] eqn:Hface; [|done].
      injection Hk as <-. destruct (truthy (flags k)); [|by rewrite length_replicate].
      pose proof (generated_widths surface Hgen) as Hall.
      rewrite Forall_lookup in Hall. by apply (Hall k).
Qed.

Lemma index_array_layout_witness :
  let surface :=
    (Surface.generate (Surface.new (3, 3) QUAD) {| var_i := 0; var_j := 0 |}).1 in
  let flags := λ k : nat, js_get [VNum 0; VNum 1; VNum 0; VNum 1] k in
  Surface.index_array
    (Surface.set_face_array
       (imap (λ k, Face.set_visible (flags k)) (Surface.face_array surface)) surface)
  = [0;0;0;0; 2;1;4;5; 0;0;0;0; 5;4;7;8].
Proof.
  intros surface flags.
  rewrite (proj1 (index_array_layout surface flags ltac:(intros sc; reflexivity))).
  reflexivity.
Defined.

(** C5. Applying a mask twice in succession gives the same face
    visibilities and the same index array as applying it once: [apply]
    overwrites the visibility of every face, whatever it was before. *)
Theorem apply_idempotent (filter : Filter.t) (surface : Surface.t) :
  let once := Filter.apply filter surface in
  let twice := Filter.apply filter once in
  Face.visible <$> Surface.face_array twice = Face.visible <$> Surface.face_array once
  ∧ Surface.index_array twice = Surface.index_array once
  ∧ twice = once
  ∧ (∀ flags : nat → value,
       Filter.apply filter
         (Surface.set_face_array
            (imap (λ k, Face.set_visible (flags k)) (Surface.face_array surface))
            surface)
       = once).
Proof.
  intros once twice.
  assert (twice = once) as Heq by apply apply_twice.
  split_and!; [by rewrite Heq|by rewrite Heq|done|].
  intros flags. unfold once, Filter.apply, Surface.set_face_array.
  cbn [Surface.dim Surface.draw_mode Surface.face_array]. f_equal.
  apply list_eq. intros k. rewrite !list_lookup_imap.
  by destruct (Surface.face_array surface !! k).
Qed.

Lemma apply_overwrites (filter filter' : Filter.t) (surface : Surface.t) :
  Filter.apply filter (Filter.apply filter' surface) = Filter.apply filter surface.
Proof.
  unfold Filter.apply at 1 3. rewrite apply_faces.
  unfold Surface.set_face_array. cbn [Surface.dim Surface.draw_mode]. f_equal.
  apply list_eq. intros k. rewrite !list_lookup_imap.
  by destruct (Surface.face_array surface !! k).
Qed.

(** C10. [apply] is defined for every surface and every mask, whatever
    their lengths: it visits the faces, not the mask.  Face [k] receives
    [mask[k]]; where the mask is too short that is [undefined], which
    [index_array()] treats as hidden; mask elements beyond the last face
    are not read. *)
Theorem apply_any_mask (filter : Filter.t) (surface : Surface.t) :
  let mask := Filter.mask filter in
  let faces := Surface.face_array surface in
  let after := Filter.apply filter surface in
  let zeros := if Surface.draw_mode surface =? QUAD then [0; 0; 0; 0] else [0; 0; 0] in
  length (Surface.face_array after) = length faces
  ∧ (∀ k face, faces !! k = Some face →
       Surface.face_array after !! k
       = Some (Face.new (Face.index_array face) (default VUndef (mask !! k))))
  ∧ (∀ k face, faces !! k = Some face → (length mask ≤ k)%nat →
       Surface.face_array after !! k = Some (Face.new (Face.index_array face) VUndef))
  ∧ Surface.index_array after
    = mjoin (imap (λ k face,
                     match mask !! k with
                     | Some v => if truthy v then Face.index_array face else zeros
                     | None => zeros
                     end) faces)
  ∧ (∀ filter', take (length faces) (Filter.mask filter') = take (length faces) mask →
       Filter.apply filter' surface = after).
Proof.
  intros mask faces after zeros.
  assert (∀ k face, faces !! k = Some face →
            Surface.face_array after !! k
            = Some (Face.new (Face.index_array face) (default VUndef (mask !! k))))
    as Hlookup.
  { intros k face Hk. unfold after. rewrite apply_faces, list_lookup_imap.
    fold faces. by rewrite Hk. }
  split_and!; [|done| | |].
  - unfold after. by rewrite apply_faces, length_imap.
  - intros k face Hk Hlen. rewrite (Hlookup k face Hk).
    by rewrite (lookup_ge_None_2 mask k).
  - unfold Surface.index_array, after. rewrite apply_faces, fmap_imap. f_equal.
    apply imap_ext. intros k face _. fold mask.
    cbn [compose Face.visible Face.index_array Filter.apply Surface.draw_mode
         Surface.set_face_array].
    unfold js_get. by destruct (mask !! k).
  - intros filter' Htake. unfold after, Filter.apply. f_equal.
    apply imap_ext. intros k face Hk. apply lookup_lt_Some in Hk.
    unfold js_get. fold mask. fold faces in Hk.
    rewrite <- (lookup_take_lt (Filter.mask filter') (length faces) k) by done.
    rewrite <- (lookup_take_lt mask (length faces) k) by done.
    by rewrite Htake.
Qed.

(** C7, as the program has it.  [apply] has no length check and no error
    condition: for a mask given by a list message whose length differs
    from [face_count()], the mask is stored and applied all the same; face
    [k] receives element [k] of the list, or [undefined] where the list is
    too short, and the number of faces is unchanged. *)
Theorem list_length_mismatch (a : list Z) (p : Program) :
  Z.of_nat (length a) ≠ Surface.face_count (g_surface p) →
  let p' := Api.list a p in
  Filter.mask (g_filter p') = VNum <$> a
  ∧ g_surface p' = Filter.apply (g_filter p') (g_surface p)
  ∧ g_draw p' = true
  ∧ Surface.face_count (g_surface p') = Surface.face_count (g_surface p)
  ∧ (∀ k face, Surface.face_array (g_surface p) !! k = Some face →
       Surface.face_array (g_surface p') !! k
       = Some (Face.new (Face.index_array face)
                 (match a !! k with Some n => VNum n | None => VUndef end))).
Proof.
  intros _ p'. split_and!; [done|done|done|apply apply_face_count|].
  intros k face Hk. unfold p', Api.list. cbn [g_surface].
  rewrite apply_faces, list_lookup_imap, Hk. cbn [fmap option_fmap option_map].
  do 2 f_equal. unfold js_get. cbn [Filter.mask Filter.set_mask].
  rewrite list_lookup_fmap. by destruct (a !! k).
Qed.

Lemma list_length_mismatch_witness :
  Surface.index_array (g_surface (Api.list [1] (Api.dim [3; 3] initial)))
  = [1;0;3;4; 0;0;0;0; 0;0;0;0; 0;0;0;0].
Proof.
  rewrite (proj1 (proj2
    (list_length_mismatch [1] (Api.dim [3; 3] initial) ltac:(vm_compute; discriminate)))).
  reflexivity.
Defined.

(** C7 as stated fails: with four faces, a list message of one element is
    not refused.  The mask is applied and the visibility of every face is
    rewritten. *)
Lemma list_length_mismatch_not_refused :
  let p := Api.dim [3; 3] initial in
  let p' := Api.list [0] p in
  Z.of_nat (length (Filter.mask (g_filter p'))) ≠ Surface.face_count (g_surface p')
  ∧ g_surface p' ≠ g_surface p
  ∧ Surface.index_array (g_surface p) = [1;0;3;4; 2;1;4;5; 4;3;6;7; 5;4;7;8]
  ∧ Surface.index_array (g_surface p') = [0;0;0;0; 0;0;0;0; 0;0;0;0; 0;0;0;0].
Proof.
  intros p p'. split_and!; [by vm_compute| |by vm_compute|by vm_compute].
  intros Heq. apply (f_equal Surface.index_array) in Heq. by vm_compute in Heq.
Qed.

(** * Dimension messages *)

Lemma generate_faces (this : Surface.t) (sc : Scope) :
  Surface.face_array (Surface.generate this sc).1
  = if Surface.draw_mode this =? QUAD
    then (λ '(i, j), fresh (quad_indices (Surface.dim this).1 i j))
           <$> near_order (Surface.dim this).1 (Surface.dim this).2
    else ((λ '(i, j), fresh (tri_near_indices (Surface.dim this).1 i j))
            <$> near_order (Surface.dim this).1 (Surface.dim this).2)
         ++ ((λ '(i, j), fresh (tri_far_indices (Surface.dim this).1 i j))
               <$> far_order (Surface.dim this).1 (Surface.dim this).2).
Proof.
  unfold Surface.generate. destruct (_ =? QUAD);
    [apply quad_grid_faces|apply tri_grid_faces].
Qed.

Lemma generate_keeps (this : Surface.t) (sc : Scope) :
  Surface.dim (Surface.generate this sc).1 = Surface.dim this
  ∧ Surface.draw_mode (Surface.generate this sc).1 = Surface.draw_mode this.
Proof. unfold Surface.generate. by destruct (_ =? QUAD). Qed.

Lemma generate_generated (this : Surface.t) (sc : Scope) :
  generated (Surface.generate this sc).1.
Proof.
  intros sc'. destruct (generate_keeps this sc) as [Hdim Hmode].
  by rewrite (generate_faces (Surface.generate this sc).1), Hdim, Hmode, generate_faces.
Qed.

Lemma bind_all_nil {A B} (l : list A) : l ≫= (λ _, @nil B) = [].
Proof. induction l as [|x l IH]; [done|]. by rewrite bind_cons, IH. Qed.

Lemma near_order_nil cols rows : cols < 2 ∨ rows < 2 → near_order cols rows = [].
Proof.
  unfold near_order. intros [H|H].
  - rewrite (seqZ_nil 0 (cols - 1)) by lia. apply bind_all_nil.
  - by rewrite (seqZ_nil 0 (rows - 1)) by lia.
Qed.

Lemma far_order_nil cols rows : cols < 2 ∨ rows < 2 → far_order cols rows = [].
Proof.
  unfold far_order. intros [H|H].
  - rewrite (seqZ_nil 2 (cols - 1)) by lia. apply bind_all_nil.
  - by rewrite (seqZ_nil 1 (rows - 1)) by lia.
Qed.

(** C8, as the program has it.  The handler has one guard, [a.length == 2
    && a[0] > 0 && a[1] > 0], and no error condition.  A message that does
    not have exactly two components, or has a component not greater than
    0, is ignored and the whole state is unchanged.  A message with two
    components greater than 0 is accepted: the dimension is stored, the
    face array regenerated and the draw flag set; a component below 2
    (that is, 1) gives an empty face array. *)
Theorem dim_guard (a : list Z) (p : Program) :
  ((length a ≠ 2%nat ∨ ∃ x, x ∈ a ∧ x ≤ 0) → Api.dim a p = p)
  ∧ (∀ a0 a1, a = [a0; a1] → 0 < a0 → 0 < a1 →
       let p' := Api.dim a p in
       Surface.dim (g_surface p') = (a0, a1)
       ∧ Surface.draw_mode (g_surface p') = Surface.draw_mode (g_surface p)
       ∧ generated (g_surface p')
       ∧ g_draw p' = true
       ∧ g_filter p' = g_filter p
       ∧ (a0 < 2 ∨ a1 < 2 → Surface.face_array (g_surface p') = [])).
Proof.
  split.
  - intros Hbad. destruct a as [|a0 [|a1 [|a2 a]]]; try done.
    destruct Hbad as [Hlen|(x & Hx & Hle)]; [done|].
    unfold Api.dim.
    assert ((0 <? a0) && (0 <? a1) = false) as ->; [|done].
    apply andb_false_iff.
    apply elem_of_cons in Hx as [->|Hx]; [left; lia|].
    apply elem_of_cons in Hx as [->|Hx]; [right; lia|].
    by apply elem_of_nil in Hx.
  - intros a0 a1 -> H0 H1 p'. unfold p', Api.dim.
    assert ((0 <? a0) && (0 <? a1) = true) as ->.
    { apply andb_true_iff. lia. }
    set (this := Surface.set_dim (a0, a1) (g_surface p)).
    pose proof (generate_keeps this (globals p)) as [Hdim Hmode].
    pose proof (generate_generated this (globals p)) as Hgen.
    pose proof (generate_faces this (globals p)) as Hfaces.
    destruct (Surface.generate this (globals p)) as [surface sc].
    cbn [fst g_surface g_draw g_filter] in *.
    split_and!; [done|done|done|done|done|].
    intros Hlow. rewrite Hfaces. cbn [this Surface.set_dim Surface.dim fst snd].
    rewrite near_order_nil, far_order_nil by done. by destruct (_ =? QUAD).
Qed.

Lemma dim_guard_witness :
  Api.dim [0; 5] (Api.dim [3; 3] initial) = Api.dim [3; 3] initial
  ∧ Surface.dim (g_surface (Api.dim [1; 5] (Api.dim [3; 3] initial))) = (1, 5).
Proof.
  split.
  - apply (proj1 (dim_guard [0; 5] (Api.dim [3; 3] initial))).
    right. exists 0. split; [apply list_elem_of_here|lia].
  - apply (proj2 (dim_guard [1; 5] (Api.dim [3; 3] initial)) 1 5);
      [reflexivity|lia|lia].
Defined.

(** C8 as stated fails: a dimension message with a component equal to 1 is
    accepted.  The dimension is replaced, the four faces of the 3 by 3
    grid are replaced by an empty face array, and the draw flag is set. *)
Lemma dim_below_two_accepted :
  let p := Api.dim [3; 3] initial in
  let p' := Api.dim [1; 5] p in
  Surface.dim (g_surface p) = (3, 3)
  ∧ Surface.face_count (g_surface p) = 4
  ∧ Surface.dim (g_surface p') = (1, 5)
  ∧ Surface.face_count (g_surface p') = 0
  ∧ g_surface p' ≠ g_surface p.
Proof.
  intros p p'. split_and!; [by vm_compute..|].
  intros Heq. apply (f_equal Surface.dim) in Heq. by vm_compute in Heq.
Qed.

(** * Example filters *)

Lemma one_minus_bit (v : value) :
  v = VNum 0 ∨ v = VNum 1 → one_minus (one_minus v) = v.
Proof. by intros [-> | ->]. Qed.

(** C6, as the program has it.  For a mask of elements 0 and 1 whose
    length is the face count and which is the mask last applied to the
    face array (the visibility of the faces agrees with it), [reverse]
    twice restores the mask, the visibility of every face and the index
    array. *)
Theorem reverse_involution (p : Program) :
  Forall (λ v, v = VNum 0 ∨ v = VNum 1) (Filter.mask (g_filter p)) →
  Z.of_nat (length (Filter.mask (g_filter p))) = Surface.face_count (g_surface p) →
  applied (g_filter p) (g_surface p) →
  let p'' := Filters.reverse (Filters.reverse p) in
  Filter.mask (g_filter p'') = Filter.mask (g_filter p)
  ∧ g_surface p'' = g_surface p
  ∧ Surface.index_array (g_surface p'') = Surface.index_array (g_surface p).
Proof.
  intros Hbits _ Happlied p''.
  assert (Filter.mask (g_filter p'') = Filter.mask (g_filter p)) as Hmask.
  { unfold p'', Filters.reverse. cbn [g_filter Filter.mask Filter.set_mask].
    rewrite <- list_fmap_compose.
    transitivity (id <$> Filter.mask (g_filter p)); [|apply list_fmap_id].
    apply list_fmap_ext. intros k v Hv. apply one_minus_bit.
    rewrite Forall_lookup in Hbits. by apply (Hbits k). }
  assert (g_surface p'' = g_surface p) as Hsurface.
  { transitivity (Filter.apply (g_filter p'') (g_surface p)).
    - unfold p'', Filters.reverse at 1. cbn [g_surface g_filter].
      unfold Filters.reverse. cbn [g_surface g_filter]. apply apply_overwrites.
    - destruct (g_filter p'') as [m] eqn:Hf, (g_filter p) as [m0] eqn:Hf0.
      cbn [Filter.mask] in Hmask. by rewrite Hmask. }
  by rewrite Hsurface.
Qed.

Lemma reverse_involution_witness :
  let p := Api.list [0; 1; 0; 1] (Api.dim [3; 3] initial) in
  Surface.index_array (g_surface (Filters.reverse (Filters.reverse p)))
  = [0;0;0;0; 2;1;4;5; 0;0;0;0; 5;4;7;8].
Proof.
  intros p.
  rewrite (proj2 (proj2 (reverse_involution p
             ltac:(repeat (constructor; [first [by left|by right]|]); constructor)
             ltac:(reflexivity) ltac:(reflexivity)))).
  reflexivity.
Defined.

(** C6 as stated fails where the mask is stale.  After [dim 3 3], the list
    [0 1 0 1] and [dim 3 3] again, the mask still has four elements 0 and
    1 and there are four faces, all visible since the regeneration.
    [reverse] twice restores the mask but the index array is the masked
    one, not the original. *)
Lemma reverse_twice_stale_mask :
  let p := Api.dim [3; 3] (Api.list [0; 1; 0; 1] (Api.dim [3; 3] initial)) in
  let p'' := Filters.reverse (Filters.reverse p) in
  Forall (λ v, v = VNum 0 ∨ v = VNum 1) (Filter.mask (g_filter p))
  ∧ Z.of_nat (length (Filter.mask (g_filter p))) = Surface.face_count (g_surface p)
  ∧ Filter.mask (g_filter p'') = Filter.mask (g_filter p)
  ∧ Surface.index_array (g_surface p) = [1;0;3;4; 2;1;4;5; 4;3;6;7; 5;4;7;8]
  ∧ Surface.index_array (g_surface p'') = [0;0;0;0; 2;1;4;5; 0;0;0;0; 5;4;7;8]
  ∧ Surface.index_array (g_surface p'') ≠ Surface.index_array (g_surface p).
Proof.
  intros p p''. split_and!; [|by vm_compute..].
  repeat (constructor; [first [by left|by right]|]); constructor.
Qed.

Section PureCalls.
Context {U : Type}.
Variable func : Filter.predicate (U := U).
Variable surface : Surface.t.

(** A filter function without effect on its closure gives the mask by
    mapping over the calls. *)
Lemma calls_pure (f : Scope → value) (calls : list Scope) a u :
  (∀ sc u, func sc surface u = (f sc, u)) →
  foldl (call func surface) (a, u) calls = (a ++ (f <$> calls), u).
Proof.
  intros Hpure. revert a. induction calls as [|sc calls IH]; intros a.
  - by rewrite app_nil_r.
  - cbn [foldl]. unfold call at 2, Filter.push. rewrite Hpure. cbn [snd].
    rewrite IH. by rewrite <- app_assoc.
Qed.

(** Recording changes neither the mask nor the closure state. *)
Lemma calls_recording (calls : list Scope) a u log :
  (foldl (call (recording func) surface) (a, (u, log)) calls).1
  = (foldl (call func surface) (a, u) calls).1.
Proof.
  revert a u log. induction calls as [|sc calls IH]; intros a u log; [done|].
  cbn [foldl]. unfold call at 2 4, Filter.push, recording.
  destruct (func sc surface u) as [v u']. cbn [snd]. apply IH.
Qed.
End PureCalls.

Lemma generate_msg_fields func order (p : Program) :
  let r := Filter.generate func order (g_filter p) (g_surface p) (globals p) () in
  g_filter (Filters.generate_msg func order p) = r.1.1.1
  ∧ g_surface (Filters.generate_msg func order p) = r.1.1.2
  ∧ g_draw (Filters.generate_msg func order p) = true.
Proof.
  intros r. unfold Filters.generate_msg. fold r.
  by destruct r as [[[??]?]?].
Qed.

(** C9.  [spiral] uses the plain traversal of [generate], where the loop
    counter [i] counts the calls: the [k]-th call finds [i = k].  Hence,
    for a surface of dimension [(cols, rows)], element [k] of the mask,
    [0 <= k < face_count()], is 0 if [k < cols * (k mod rows)] and 1
    otherwise. *)
Theorem spiral_mask (p : Program) (cols rows : Z) :
  Surface.dim (g_surface p) = (cols, rows) → 0 < rows →
  let count := Surface.face_count (g_surface p) in
  let mask := Filter.mask (g_filter (Filters.spiral p)) in
  let recorded :=
    Filter.generate (recording Filters.spiral_func) VUndef
      (g_filter p) (g_surface p) (globals p) ((), []) in
  Z.of_nat (length mask) = count
  ∧ (∀ k, 0 ≤ k < count →
       mask !! Z.to_nat k
       = Some (if k <? cols * (k `mod` rows) then VNum 0 else VNum 1))
  ∧ g_surface (Filters.spiral p)
    = Filter.apply (g_filter (Filters.spiral p)) (g_surface p)
  ∧ Filter.mask recorded.1.1.1 = mask
  ∧ fst <$> recorded.2.2 = seqZ 0 count.
Proof.
  intros Hdim Hrows count mask recorded.
  set (f := λ sc : Scope,
         match js_rem (var_i sc) rows with
         | Some r => if var_i sc <? cols * r then VNum 0 else VNum 1
         | None => VNum 1
         end).
  assert (∀ sc u, Filters.spiral_func sc (g_surface p) u = (f sc, u)) as Hpure.
  { intros sc u. unfold Filters.spiral_func, f. by rewrite Hdim. }
  destruct (generate_msg_fields Filters.spiral_func VUndef p) as (Hfilter & Hsurface & _).
  destruct (generate_calls Filters.spiral_func (g_surface p) VUndef
              (g_filter p) (globals p) ()) as (Hf & Hs & _).
  cbn [truthy] in Hf, Hs. rewrite (calls_pure _ _ f) in Hf, Hs by done.
  cbn [fst app] in Hf, Hs.
  assert (mask = f <$> plain_calls (g_surface p) (globals p)) as Hmask.
  { unfold mask, Filters.spiral. by rewrite Hfilter, Hf. }
  destruct (generate_calls (recording Filters.spiral_func) (g_surface p) VUndef
              (g_filter p) (globals p) ((), [])) as (Hrf & _ & Hru).
  cbn [truthy] in Hrf, Hru. fold recorded in Hrf, Hru.
  split_and!.
  - rewrite Hmask. unfold plain_calls. rewrite !length_fmap, length_seqZ.
    unfold count, Surface.face_count. lia.
  - intros k Hk. rewrite Hmask. unfold plain_calls.
    rewrite <- list_fmap_compose, list_lookup_fmap, lookup_seqZ_lt by lia.
    cbn [fmap option_fmap option_map compose f set_i var_i]. f_equal.
    rewrite Z2Nat.id, Z.add_0_l by lia. unfold f, js_rem. cbn [set_i var_i].
    destruct (Z.eqb_spec rows 0) as [->|_]; [lia|].
    by rewrite Z.rem_mod_nonneg by lia.
  - unfold Filters.spiral. by rewrite Hsurface, Hs, Hfilter, Hf.
  - rewrite Hrf. cbn [Filter.mask Filter.set_mask].
    by rewrite calls_recording, (calls_pure _ _ f).
  - rewrite Hru, calls_recorded. cbn [app]. unfold plain_calls, count.
    rewrite <- !list_fmap_compose.
    transitivity (id <$> seqZ 0 (Surface.face_count (g_surface p)));
      [|apply list_fmap_id].
    by apply list_fmap_ext.
Qed.

Lemma spiral_mask_witness :
  Filter.mask (g_filter (Filters.spiral (Api.dim [3; 3] initial))) !! 2%nat
  = Some (VNum 0).
Proof.
  assert (Surface.dim (g_surface (Api.dim [3; 3] initial)) = (3, 3)) as Hdim
    by reflexivity.
  assert (0 < 3) as Hrows by lia.
  apply (proj1 (proj2 (spiral_mask (Api.dim [3; 3] initial) 3 3 Hdim Hrows)) 2).
  split; [lia|reflexivity].
Defined.

Lemma apply_idempotent_witness :
  let surface :=
    (Surface.generate (Surface.new (3, 3) QUAD) {| var_i := 0; var_j := 0 |}).1 in
  let filter := Filter.set_mask [VNum 0; VNum 1; VNum 0; VNum 1] Filter.new in
  Surface.index_array (Filter.apply filter (Filter.apply filter surface))
  = [0;0;0;0; 2;1;4;5; 0;0;0;0; 5;4;7;8].
Proof.
  intros surface filter.
  rewrite (proj1 (proj2 (apply_idempotent filter surface))).
  reflexivity.
Defined.

Lemma apply_any_mask_witness :
  let surface :=
    (Surface.generate (Surface.new (3, 3) QUAD) {| var_i := 0; var_j := 0 |}).1 in
  let filter := Filter.set_mask [VNum 1; VNum 1] Filter.new in
  Surface.face_array (Filter.apply filter surface) !! 3%nat
  = Some (Face.new [5; 4; 7; 8] VUndef).
Proof.
  intros surface filter.
  apply (proj1 (proj2 (proj2 (apply_any_mask filter surface))) 3%nat
           (Face.new [5; 4; 7; 8] (VNum 1))).
  - reflexivity.
  - cbn. lia.
Defined.

(** * Further properties of the grids *)

Lemma elem_of_near_order cols rows i j :
  (i, j) ∈ near_order cols rows ↔ 0 ≤ i < rows - 1 ∧ 0 ≤ j < cols - 1.
Proof.
  unfold near_order. rewrite list_elem_of_bind. split.
  - intros (i' & Hj & Hi). apply list_elem_of_fmap in Hj as (j' & [= -> ->] & Hj).
    apply elem_of_seqZ in Hi, Hj. lia.
  - intros [Hi Hj]. exists i. split.
    + apply list_elem_of_fmap. exists j. split; [done|]. apply elem_of_seqZ. lia.
    + apply elem_of_seqZ. lia.
Qed.

Lemma elem_of_far_order cols rows i j :
  (i, j) ∈ far_order cols rows ↔ 1 ≤ i ≤ rows - 1 ∧ 2 ≤ j ≤ cols.
Proof.
  unfold far_order. rewrite list_elem_of_bind. split.
  - intros (i' & Hj & Hi). apply list_elem_of_fmap in Hj as (j' & [= -> ->] & Hj).
    apply elem_of_reverse, elem_of_seqZ in Hi.
    apply elem_of_reverse, elem_of_seqZ in Hj. lia.
  - intros [Hi Hj]. exists i. split.
    + apply list_elem_of_fmap. exists j. split; [done|].
      apply elem_of_reverse, elem_of_seqZ. lia.
    + apply elem_of_reverse, elem_of_seqZ. lia.
Qed.

Lemma length_generate (this : Surface.t) (sc : Scope) (cols rows : Z) :
  Surface.dim this = (cols, rows) →
  Surface.face_count (Surface.generate this sc).1
  = faces_per_cell (Surface.draw_mode this)
    * (Z.max 0 (rows - 1) * Z.max 0 (cols - 1)).
Proof.
  intros Hdim. unfold Surface.face_count, faces_per_cell.
  rewrite generate_faces, Hdim. cbn [fst snd].
  destruct (_ =? QUAD);
    rewrite ?length_app, !length_fmap, ?length_near_order, ?length_far_order; nia.
Qed.

(** Number of faces [generate] builds, for every dimension and mode: one
    face per cell for QUAD, two otherwise, and none when a dimension is
    below 2. *)
Theorem generate_face_count (this : Surface.t) (sc : Scope) (cols rows : Z) :
  Surface.dim this = (cols, rows) →
  let count := Surface.face_count (Surface.generate this sc).1 in
  count = (if Surface.draw_mode this =? QUAD then 1 else 2)
          * (Z.max 0 (rows - 1) * Z.max 0 (cols - 1))
  ∧ (cols < 2 ∨ rows < 2 → Surface.face_array (Surface.generate this sc).1 = []).
Proof.
  intros Hdim count. split; [by apply length_generate|].
  intros Hlow. apply nil_length_inv.
  pose proof (length_generate this sc cols rows Hdim) as Hlen.
  unfold Surface.face_count in Hlen. nia.
Qed.

Lemma generate_face_count_witness :
  Surface.face_count
    (Surface.generate (Surface.new (4, 3) TRI) {| var_i := 0; var_j := 0 |}).1 = 12.
Proof.
  exact (proj1 (generate_face_count (Surface.new (4, 3) TRI)
                  {| var_i := 0; var_j := 0 |} 4 3 eq_refl)).
Defined.

(** Every index of every generated face is the id of a vertex of the
    grid: it lies in [0, cols * rows). *)
Theorem generate_vertex_bounds (this : Surface.t) (sc : Scope)
    (cols rows : Z) (face : Face.t) (v : Z) :
  Surface.dim this = (cols, rows) →
  face ∈ Surface.face_array (Surface.generate this sc).1 →
  v ∈ Face.index_array face →
  0 ≤ v < cols * rows.
Proof.
  intros Hdim Hface Hv. rewrite generate_faces, Hdim in Hface. cbn [fst snd] in Hface.
  assert ((∃ i j, (i, j) ∈ near_order cols rows
                  ∧ (face = fresh (quad_indices cols i j)
                     ∨ face = fresh (tri_near_indices cols i j)))
          ∨ (∃ i j, (i, j) ∈ far_order cols rows
                    ∧ face = fresh (tri_far_indices cols i j))) as Hcases.
  { destruct (_ =? QUAD).
    - apply list_elem_of_fmap in Hface as ([i j] & -> & Hij). left. eauto.
    - apply elem_of_app in Hface as [Hface|Hface];
        apply list_elem_of_fmap in Hface as ([i j] & -> & Hij); [left|right]; eauto. }
  destruct Hcases as [(i & j & Hij & Hf)|(i & j & Hij & ->)].
  - apply elem_of_near_order in Hij.
    destruct Hf as [-> | ->]; cbn in Hv;
      repeat (apply elem_of_cons in Hv as [->|Hv]; [nia|]);
      by apply elem_of_nil in Hv.
  - apply elem_of_far_order in Hij. cbn in Hv.
    repeat (apply elem_of_cons in Hv as [->|Hv]; [nia|]).
    by apply elem_of_nil in Hv.
Qed.

Lemma generate_vertex_bounds_witness : 0 ≤ 8 < 3 * 3.
Proof.
  apply (generate_vertex_bounds (Surface.new (3, 3) TRI) {| var_i := 0; var_j := 0 |}
           3 3 (fresh [5; 7; 8]) 8).
  - reflexivity.
  - vm_compute. do 3 apply list_elem_of_further. apply list_elem_of_here.
  - do 2 apply list_elem_of_further. apply list_elem_of_here.
Defined.

(** In draw mode TRI the two passes tile each cell with two triangles
    that share a diagonal.  For the cell of row [r] and column [c], the
    near-to-far pass gives, at position [r*(cols-1)+c], the triangle of
    the corners (r,c+1), (r+1,c), (r+1,c+1); the far-to-near pass gives,
    at position [(rows-1)*(cols-1) + (rows-2-r)*(cols-1) + c], the
    triangle of the corners (r,c), (r+1,c), (r,c+1). *)
Theorem tri_grid_cell (this : Surface.t) (sc : Scope) (cols rows r c : Z) :
  Surface.dim this = (cols, rows) → Surface.draw_mode this = TRI →
  0 ≤ r < rows - 1 → 0 ≤ c < cols - 1 →
  let faces := Surface.face_array (Surface.generate this sc).1 in
  let n := (rows - 1) * (cols - 1) in
  faces !! Z.to_nat (r * (cols - 1) + c)
  = Some (fresh [vertex cols r (c + 1); vertex cols (r + 1) c;
                 vertex cols (r + 1) (c + 1)])
  ∧ faces !! Z.to_nat (n + (rows - 2 - r) * (cols - 1) + c)
    = Some (fresh [vertex cols r c; vertex cols (r + 1) c; vertex cols r (c + 1)]).
Proof.
  intros Hdim Hmode Hr Hc faces n. unfold faces.
  rewrite generate_faces, Hdim, Hmode. cbn [fst snd Z.eqb Pos.eqb TRI QUAD].
  assert (length ((λ '(i, j), fresh (tri_near_indices cols i j))
                    <$> near_order cols rows) = Z.to_nat n) as Hlen.
  { rewrite length_fmap, length_near_order. unfold n. nia. }
  split.
  - rewrite lookup_app_l by (rewrite Hlen; unfold n; nia).
    unfold near_order. rewrite fmap_bind_list.
    rewrite (list_bind_ext _ (λ i, (λ j, fresh (tri_near_indices cols i j))
                                     <$> seqZ 0 (cols - 1)) _ (seqZ 0 (rows - 1)));
      [|by intros; rewrite <- list_fmap_compose|done].
    rewrite (lookup_grid_up (λ i j, fresh (tri_near_indices cols i j))) by lia.
    unfold tri_near_indices, vertex. cbn. unfold fresh. do 3 f_equal; [lia|].
    f_equal; [lia|]. f_equal. lia.
  - rewrite lookup_app_r by (rewrite Hlen; unfold n; nia). rewrite Hlen.
    replace (Z.to_nat (n + (rows - 2 - r) * (cols - 1) + c) - Z.to_nat n)%nat
      with (Z.to_nat ((1 + (rows - 1) - 1 - (r + 1)) * (cols - 1)
                      + (2 + (cols - 1) - 1 - (cols - c)))) by (unfold n; nia).
    unfold far_order. rewrite fmap_bind_list.
    rewrite (list_bind_ext _ (λ i, (λ j, fresh (tri_far_indices cols i j))
                                     <$> reverse (seqZ 2 (cols - 1)))
               _ (reverse (seqZ 1 (rows - 1))));
      [|by intros; rewrite <- list_fmap_compose|done].
    rewrite (lookup_grid_down (λ i j, fresh (tri_far_indices cols i j))) by lia.
    unfold tri_far_indices, vertex. cbn. unfold fresh. do 3 f_equal; [lia|].
    f_equal; [lia|]. f_equal. lia.
Qed.

Lemma tri_grid_cell_witness :
  let faces :=
    Surface.face_array
      (Surface.generate (Surface.new (3, 3) TRI) {| var_i := 0; var_j := 0 |}).1 in
  faces !! 3%nat = Some (fresh [5; 7; 8]) ∧ faces !! 5%nat = Some (fresh [4; 7; 5]).
Proof.
  assert (0 ≤ 1 < 3 - 1) as H by lia.
  exact (tri_grid_cell (Surface.new (3, 3) TRI) {| var_i := 0; var_j := 0 |}
           3 3 1 1 eq_refl eq_refl H H).
Defined.

(** * Further properties of the filter *)

Lemma generate_applies {U : Type} (func : Filter.predicate (U := U)) order
    (this : Filter.t) (surface : Surface.t) sc u :
  let r := Filter.generate func order this surface sc u in
  r.1.1.2 = Filter.apply r.1.1.1 surface.
Proof.
  intros r. destruct (generate_calls func surface order this sc u) as (Hf & Hs & _).
  fold r in Hf, Hs. by rewrite Hs, Hf.
Qed.

Lemma length_plain_calls (surface : Surface.t) (sc : Scope) :
  length (plain_calls surface sc) = length (Surface.face_array surface).
Proof.
  unfold plain_calls, Surface.face_count.
  by rewrite length_fmap, length_seqZ, Nat2Z.id.
Qed.

Lemma length_ordered_calls (surface : Surface.t) :
  Z.of_nat (length (ordered_calls surface))
  = (if Surface.draw_mode surface =? TRI then 2 else 1)
    * (Z.max 0 ((Surface.dim surface).2 - 1) * Z.max 0 ((Surface.dim surface).1 - 1)).
Proof.
  unfold ordered_calls. destruct (Surface.dim surface) as [cols rows]. cbn [fst snd].
  destruct (_ =? TRI);
    rewrite length_app, !length_fmap, length_near_order, ?length_far_order;
    cbn [length]; nia.
Qed.

(** The mask a face array of the same length receives: face [k] gets
    element [k]. *)
Lemma apply_full_mask (filter : Filter.t) (surface : Surface.t) k face :
  length (Filter.mask filter) = length (Surface.face_array surface) →
  Surface.face_array (Filter.apply filter surface) !! k = Some face →
  Filter.mask filter !! k = Some (Face.visible face).
Proof.
  intros Hlen Hk. apply apply_lookup in Hk as (face0 & Hk0 & ->).
  apply lookup_lt_Some in Hk0. cbn [Face.visible]. unfold js_get.
  destruct (lookup_lt_is_Some_2 (Filter.mask filter) k) as [v ->]; [lia|done].
Qed.

(** Plain [generate] (order omitted or falsy), for every surface and every
    filter function, with whatever state of its own: the function is
    called [face_count()] times, the [k]-th call finding [i = k] and [j]
    as it was; the mask has one element per face, and face [k] receives
    element [k], which is the value the [k]-th call returned. *)
Theorem generate_plain {U : Type} (func : Filter.predicate (U := U)) (order : value)
    (this : Filter.t) (surface : Surface.t) (sc : Scope) (u : U) :
  truthy order = false →
  let r := Filter.generate func order this surface sc u in
  let recorded := Filter.generate (recording func) order this surface sc (u, []) in
  recorded.2.2 = (λ k, (k, var_j sc)) <$> seqZ 0 (Surface.face_count surface)
  ∧ Filter.mask recorded.1.1.1 = Filter.mask r.1.1.1
  ∧ Z.of_nat (length (Filter.mask r.1.1.1)) = Surface.face_count surface
  ∧ (∀ k face, Surface.face_array r.1.1.2 !! k = Some face →
       Filter.mask r.1.1.1 !! k = Some (Face.visible face))
  ∧ Filter.mask r.1.1.1
    = returns func surface
        ((λ k, set_i k sc) <$> seqZ 0 (Surface.face_count surface)) u.
Proof.
  intros Horder r recorded.
  destruct (generate_calls func surface order this sc u) as (Hf & _ & _).
  destruct (generate_calls (recording func) surface order this sc (u, []))
    as (Hrf & _ & Hru).
  rewrite Horder in Hf, Hrf, Hru. fold r in Hf. fold recorded in Hrf, Hru.
  assert (length (Filter.mask r.1.1.1) = length (Surface.face_array surface)) as Hlen.
  { rewrite Hf. cbn [Filter.mask Filter.set_mask].
    by rewrite calls_length, length_plain_calls. }
  split_and!.
  - rewrite Hru, calls_recorded. cbn [app]. unfold plain_calls.
    by rewrite <- list_fmap_compose.
  - rewrite Hrf, Hf. cbn [Filter.mask Filter.set_mask]. apply calls_recording.
  - unfold Surface.face_count. by rewrite Hlen.
  - intros k face Hk. unfold r in Hk. rewrite generate_applies in Hk.
    by apply (apply_full_mask _ surface).
  - rewrite Hf. cbn [Filter.mask Filter.set_mask]. by rewrite calls_returns.
Qed.

Lemma generate_plain_witness :
  (Filter.generate (recording Filters.fill_func) VUndef Filter.new
     (Surface.generate (Surface.new (3, 3) QUAD) {| var_i := 0; var_j := 7 |}).1
     {| var_i := 0; var_j := 7 |} ((), [])).2.2
  = [(0, 7); (1, 7); (2, 7); (3, 7)].
Proof.
  exact (proj1 (generate_plain Filters.fill_func VUndef Filter.new
                  (Surface.generate (Surface.new (3, 3) QUAD)
                     {| var_i := 0; var_j := 7 |}).1
                  {| var_i := 0; var_j := 7 |} () eq_refl)).
Defined.

(** Ordered [generate], for every surface and every filter function: the
    length of the mask comes from the dimension and the draw mode, not
    from the face array.  It is [(rows-1)*(cols-1)], doubled for TRI, and
    0 when a dimension is below 2; it is the face count when the face
    array was generated in draw mode QUAD or TRI. *)
Theorem generate_ordered_length {U : Type} (func : Filter.predicate (U := U))
    (order : value) (this : Filter.t) (surface : Surface.t) (sc : Scope) (u : U)
    (cols rows : Z) :
  truthy order = true → Surface.dim surface = (cols, rows) →
  let mask := Filter.mask (Filter.generate func order this surface sc u).1.1.1 in
  Z.of_nat (length mask)
  = (if Surface.draw_mode surface =? TRI then 2 else 1)
    * (Z.max 0 (rows - 1) * Z.max 0 (cols - 1))
  ∧ (generated surface →
     Surface.draw_mode surface = QUAD ∨ Surface.draw_mode surface = TRI →
     Z.of_nat (length mask) = Surface.face_count surface).
Proof.
  intros Horder Hdim mask.
  destruct (generate_calls func surface order this sc u) as (Hf & _ & _).
  rewrite Horder in Hf.
  assert (Z.of_nat (length mask)
          = (if Surface.draw_mode surface =? TRI then 2 else 1)
            * (Z.max 0 (rows - 1) * Z.max 0 (cols - 1))) as Hlen.
  { unfold mask. rewrite Hf. cbn [Filter.mask Filter.set_mask].
    rewrite calls_length. cbn [fst length]. rewrite Nat.add_0_l.
    by rewrite length_ordered_calls, Hdim. }
  split; [done|]. intros Hgen Hmode. rewrite Hlen.
  unfold Surface.face_count.
  rewrite <- (length_fmap Face.index_array), (Hgen sc), length_fmap.
  fold (Surface.face_count (Surface.generate surface sc).1).
  rewrite (length_generate surface sc cols rows Hdim). unfold faces_per_cell.
  by destruct Hmode as [-> | ->].
Qed.

Lemma generate_ordered_length_witness :
  Z.of_nat (length (Filter.mask (g_filter (Filters.ring 2 initial)))) = 361
  ∧ Surface.face_count (g_surface (Filters.ring 2 initial)) = 0.
Proof.
  split; [|reflexivity].
  assert (g_filter (Filters.ring 2 initial)
          = (Filter.generate (Filters.ring_func 2) (VBool true) (g_filter initial)
               (g_surface initial) (globals initial) ()).1.1.1) as ->.
  { unfold Filters.ring, Filters.generate_msg. by destruct (Filter.generate _ _ _ _ _ _) as [[[??]?]?]. }
  exact (proj1 (generate_ordered_length (Filters.ring_func 2) (VBool true)
                  (g_filter initial) (g_surface initial) (globals initial) ()
                  20 20 eq_refl eq_refl)).
Defined.

(** * Messages *)

Lemma generate_msg_surface func order (p : Program) :
  let p' := Filters.generate_msg func order p in
  g_surface p' = Filter.apply (g_filter p') (g_surface p) ∧ g_draw p' = true.
Proof.
  intros p'. destruct (generate_msg_fields func order p) as (Hf & Hs & Hd).
  split; [|done]. unfold p'. rewrite Hs, Hf. apply generate_applies.
Qed.

Lemma filter_message_surface (m : message) (p : Program) :
  filter_message m = true →
  g_surface (handle m p) = Filter.apply (g_filter (handle m p)) (g_surface p)
  ∧ g_draw (handle m p) = true.
Proof.
  destruct m; try done; intros _; cbn [handle];
    solve [done | apply generate_msg_surface].
Qed.

Lemma generate_visible (this : Surface.t) (sc : Scope) :
  Forall (λ face, Face.visible face = VNum 1)
         (Surface.face_array (Surface.generate this sc).1).
Proof.
  rewrite generate_faces. destruct (_ =? QUAD); rewrite ?Forall_app;
    repeat split; apply Forall_fmap, Forall_forall; by intros [??] _.
Qed.

Lemma index_array_visible (surface : Surface.t) :
  Forall (λ face, truthy (Face.visible face) = true) (Surface.face_array surface) →
  Surface.index_array surface = mjoin (Face.index_array <$> Surface.face_array surface).
Proof.
  intros Hall. unfold Surface.index_array. f_equal.
  apply list_fmap_ext. intros k face Hk.
  rewrite Forall_lookup in Hall. by rewrite (Hall k face Hk).
Qed.

Lemma generated_apply (filter : Filter.t) (surface : Surface.t) :
  generated surface → generated (Filter.apply filter surface).
Proof.
  intros Hgen sc. rewrite apply_indices, (Hgen sc).
  by rewrite !generate_faces.
Qed.

Lemma index_array_length (surface : Surface.t) :
  generated surface →
  length (Surface.index_array surface)
  = (length (Surface.face_array surface) * width (Surface.draw_mode surface))%nat.
Proof.
  intros Hgen. unfold Surface.index_array.
  rewrite (length_join_const _ (width (Surface.draw_mode surface)));
    [by rewrite length_fmap|].
  apply Forall_fmap. eapply Forall_impl; [apply (generated_widths _ Hgen)|].
  intros face Hface. cbn. destruct (truthy _); [done|].
  by rewrite zero_tuple, length_replicate.
Qed.

(** Every message that sets a mask ([list], [fill], [reverse], [ring],
    [spiral]) leaves each face with the mask element of its position as
    its visibility ([undefined] where the mask has none) and the draw flag
    set; it changes neither the number of faces, nor the dimension, nor
    the draw mode, nor any index tuple. *)
Theorem filter_message_sync (m : message) (p : Program) :
  filter_message m = true →
  let p' := handle m p in
  (∀ k face, Surface.face_array (g_surface p') !! k = Some face →
     Face.visible face = default VUndef (Filter.mask (g_filter p') !! k))
  ∧ g_draw p' = true
  ∧ Surface.dim (g_surface p') = Surface.dim (g_surface p)
  ∧ Surface.draw_mode (g_surface p') = Surface.draw_mode (g_surface p)
  ∧ Face.index_array <$> Surface.face_array (g_surface p')
    = Face.index_array <$> Surface.face_array (g_surface p).
Proof.
  intros Hm p'. destruct (filter_message_surface m p Hm) as [Hs Hd].
  fold p' in Hs, Hd. rewrite Hs.
  split_and!; [|done|done|done|apply apply_indices].
  intros k face Hk. by apply apply_lookup in Hk as (face0 & _ & ->).
Qed.

Lemma filter_message_sync_witness :
  let p := Filters.ring 2 (Api.dim [3; 3] initial) in
  Filter.mask (g_filter p) = [VBool false; VBool false; VBool true; VBool true]
  ∧ Face.visible <$> Surface.face_array (g_surface p) !! 2%nat = Some (VBool true).
Proof.
  intros p. split; [reflexivity|].
  destruct (Surface.face_array (g_surface p) !! 2%nat) as [face|] eqn:Hface;
    [|discriminate Hface].
  cbn [fmap option_fmap option_map]. f_equal.
  exact (proj1 (filter_message_sync (Ring 2) (Api.dim [3; 3] initial) eq_refl)
           2%nat face Hface).
Defined.

(** An accepted [dim] or [draw_mode] message regenerates every face as
    visible and leaves the mask as it was: the filter is not applied
    again, and the index array is the plain concatenation of the index
    tuples. *)
Theorem regeneration_shows_all (m : message) (p : Program) :
  (∃ a0 a1, m = Dim [a0; a1] ∧ 0 < a0 ∧ 0 < a1)
  ∨ m = DrawMode "quads" ∨ m = DrawMode "triangles" →
  let p' := handle m p in
  Forall (λ face, Face.visible face = VNum 1) (Surface.face_array (g_surface p'))
  ∧ g_filter p' = g_filter p
  ∧ g_draw p' = true
  ∧ Surface.index_array (g_surface p')
    = mjoin (Face.index_array <$> Surface.face_array (g_surface p')).
Proof.
  intros Hm p'.
  assert (∃ this, g_surface p' = (Surface.generate this (globals p)).1
                  ∧ g_filter p' = g_filter p ∧ g_draw p' = true)
    as (this & Hs & Hf & Hd).
  { unfold p'. destruct Hm as [(a0 & a1 & -> & H0 & H1)|[-> | ->]]; cbn [handle].
    - exists (Surface.set_dim (a0, a1) (g_surface p)). unfold Api.dim.
      assert ((0 <? a0) && (0 <? a1) = true) as -> by (apply andb_true_iff; lia).
      by destruct (Surface.generate _ _).
    - exists (Surface.set_draw_mode QUAD (g_surface p)). unfold Api.draw_mode.
      cbn [bool_decide decide_rel orb]. rewrite bool_decide_eq_true_2 by done.
      cbn [orb]. by destruct (Surface.generate _ _).
    - exists (Surface.set_draw_mode TRI (g_surface p)). unfold Api.draw_mode.
      rewrite (bool_decide_eq_false_2 ("triangles" = "quads")) by done.
      rewrite bool_decide_eq_true_2 by done.
      cbn [orb]. by destruct (Surface.generate _ _). }
  pose proof (generate_visible this (globals p)) as Hall. rewrite <- Hs in Hall.
  split_and!; [done|done|done|].
  apply index_array_visible. eapply Forall_impl; [exact Hall|].
  by intros face ->.
Qed.

Lemma regeneration_shows_all_witness :
  let p := Api.list [0; 1; 0; 1] (Api.dim [3; 3] initial) in
  Surface.index_array (g_surface p) = [0;0;0;0; 2;1;4;5; 0;0;0;0; 5;4;7;8]
  ∧ Surface.index_array (g_surface (Api.draw_mode "quads" p))
    = [1;0;3;4; 2;1;4;5; 4;3;6;7; 5;4;7;8]
  ∧ g_filter (Api.draw_mode "quads" p) = g_filter p.
Proof.
  intros p. split; [reflexivity|].
  destruct (regeneration_shows_all (DrawMode "quads") p
              ltac:(right; left; reflexivity)) as (_ & Hf & _ & Hi).
  split; [|exact Hf]. cbn [handle] in Hi. rewrite Hi. reflexivity.
Defined.

(** The [draw_mode] message: any string other than "quads" and
    "triangles" is ignored and the state is unchanged; the two accepted
    strings keep the dimension, set the mode to 4 and 3, and "triangles"
    gives twice the faces "quads" gives. *)
Theorem draw_mode_message (mode : string) (p : Program) :
  let quads := g_surface (Api.draw_mode "quads" p) in
  let triangles := g_surface (Api.draw_mode "triangles" p) in
  (mode ≠ "quads" → mode ≠ "triangles" → Api.draw_mode mode p = p)
  ∧ Surface.draw_mode quads = QUAD
  ∧ Surface.draw_mode triangles = TRI
  ∧ Surface.dim quads = Surface.dim (g_surface p)
  ∧ Surface.dim triangles = Surface.dim (g_surface p)
  ∧ Surface.face_count triangles = 2 * Surface.face_count quads.
Proof.
  intros quads triangles.
  assert (quads = (Surface.generate (Surface.set_draw_mode QUAD (g_surface p))
                     (globals p)).1) as Hq.
  { unfold quads, Api.draw_mode. cbn [bool_decide decide_rel orb].
    rewrite bool_decide_eq_true_2 by done. cbn [orb].
    by destruct (Surface.generate _ _). }
  assert (triangles = (Surface.generate (Surface.set_draw_mode TRI (g_surface p))
                         (globals p)).1) as Ht.
  { unfold triangles, Api.draw_mode.
    rewrite (bool_decide_eq_false_2 ("triangles" = "quads")) by done.
    rewrite bool_decide_eq_true_2 by done. cbn [orb].
    by destruct (Surface.generate _ _). }
  destruct (Surface.dim (g_surface p)) as [cols rows] eqn:Hdim.
  split_and!.
  - intros Hq' Ht'. unfold Api.draw_mode.
    by rewrite !bool_decide_eq_false_2 by done.
  - rewrite Hq. apply generate_keeps.
  - rewrite Ht. apply generate_keeps.
  - rewrite Hq. by rewrite (proj1 (generate_keeps _ _)).
  - rewrite Ht. by rewrite (proj1 (generate_keeps _ _)).
  - rewrite Hq, Ht.
    rewrite (length_generate _ _ cols rows), (length_generate _ _ cols rows) by done.
    cbn [Surface.set_draw_mode Surface.draw_mode faces_per_cell]. cbn. lia.
Qed.

Lemma draw_mode_message_witness :
  Api.draw_mode "lines" (Api.dim [3; 3] initial) = Api.dim [3; 3] initial.
Proof.
  apply (proj1 (draw_mode_message "lines" (Api.dim [3; 3] initial))); done.
Defined.

Lemma fmap_const_replicate {A B} (x : B) (l : list A) :
  (λ _, x) <$> l = replicate (length l) x.
Proof. induction l as [|a l IH]; [done|]. cbn. by rewrite <- IH. Qed.

Lemma generate_msg_pure (f : Scope → value) func order (p : Program) :
  (∀ sc u, func sc (g_surface p) u = (f sc, u)) →
  Filter.mask (g_filter (Filters.generate_msg func order p))
  = f <$> (if truthy order then ordered_calls (g_surface p)
           else plain_calls (g_surface p) (globals p)).
Proof.
  intros Hpure. destruct (generate_msg_fields func order p) as (Hf & _ & _).
  destruct (generate_calls func (g_surface p) order (g_filter p) (globals p) ())
    as (Hg & _ & _).
  rewrite Hf, Hg. cbn [Filter.mask Filter.set_mask].
  by rewrite (calls_pure _ _ f).
Qed.

(** [fill] shows the entire surface, whatever the state before: the mask
    is one 1 per face, every face is visible and the index array is the
    concatenation of all index tuples. *)
Theorem fill_shows_all (p : Program) :
  let p' := Filters.fill p in
  let faces := Surface.face_array (g_surface p) in
  Filter.mask (g_filter p') = replicate (length faces) (VNum 1)
  ∧ Surface.face_array (g_surface p')
    = (λ face, Face.new (Face.index_array face) (VNum 1)) <$> faces
  ∧ Surface.index_array (g_surface p') = mjoin (Face.index_array <$> faces).
Proof.
  intros p' faces.
  assert (Filter.mask (g_filter p') = replicate (length faces) (VNum 1)) as Hmask.
  { unfold p', Filters.fill.
    rewrite (generate_msg_pure (λ _, VNum 1)) by done. cbn [truthy].
    by rewrite fmap_const_replicate, length_plain_calls. }
  assert (Surface.face_array (g_surface p')
          = (λ face, Face.new (Face.index_array face) (VNum 1)) <$> faces) as Hfaces.
  { unfold p', Filters.fill.
    rewrite (proj1 (generate_msg_surface _ _ _)), apply_faces.
    fold (Filters.fill p). fold p'. rewrite Hmask. fold faces.
    apply list_eq. intros k. rewrite list_lookup_imap, list_lookup_fmap.
    destruct (faces !! k) as [face|] eqn:Hk; [|done]. cbn. do 2 f_equal.
    unfold js_get. by rewrite lookup_replicate_2 by (by eapply lookup_lt_Some). }
  split_and!; [done|done|].
  rewrite index_array_visible.
  - rewrite Hfaces, <- list_fmap_compose. done.
  - rewrite Hfaces. apply Forall_fmap, Forall_forall. by intros.
Qed.

(** [ring] in draw mode QUAD, on a generated face array: the face of
    stack [i] and sector [j] is shown when [i] is not a multiple of
    [count], hidden when it is; with [count = 0] every face is hidden. *)
Theorem ring_hides_stacks (count : Z) (p : Program) (cols rows i j : Z) :
  Surface.dim (g_surface p) = (cols, rows) →
  Surface.draw_mode (g_surface p) = QUAD →
  generated (g_surface p) →
  0 ≤ i < rows - 1 → 0 ≤ j < cols - 1 →
  let face := Surface.face_array (g_surface (Filters.ring count p))
                !! Z.to_nat (i * (cols - 1) + j) in
  (0 < count →
   face = Some (Face.new (quad_indices cols i j) (VBool (0 <? i `mod` count))))
  ∧ (count = 0 → face = Some (Face.new (quad_indices cols i j) (VBool false))).
Proof.
  intros Hdim Hmode Hgen Hi Hj face.
  set (f := λ sc : Scope,
         match js_rem (var_i sc) count with
         | Some r => VBool (0 <? r)
         | None => VBool false
         end).
  assert (face = Some (Face.new (quad_indices cols i j) (f (at_cell (i, j))))) as ->.
  { unfold face, Filters.ring.
    rewrite (proj1 (generate_msg_surface _ _ _)), apply_faces, list_lookup_imap.
    rewrite (generate_msg_pure f) by done. cbn [truthy].
    pose proof (generated_indices _ cols rows Hdim Hgen) as Hidx.
    rewrite Hmode in Hidx. cbn [Z.eqb Pos.eqb QUAD] in Hidx.
    assert (near_order cols rows !! Z.to_nat (i * (cols - 1) + j) = Some (i, j))
      as Hcell by (by apply (lookup_grid_up (λ i j, (i, j)))).
    apply (f_equal (.!! Z.to_nat (i * (cols - 1) + j))) in Hidx.
    rewrite !list_lookup_fmap, Hcell in Hidx. cbn in Hidx.
    destruct (Surface.face_array (g_surface p) !! _) as [face0|]; [|done].
    injection Hidx as Hidx. cbn [fmap option_fmap option_map]. do 2 f_equal; [done|].
    unfold js_get, ordered_calls. rewrite Hdim, Hmode. cbn [Z.eqb Pos.eqb QUAD TRI].
    by rewrite app_nil_r, !list_lookup_fmap, Hcell. }
  unfold f, js_rem. cbn [at_cell var_i fst]. split.
  - intros Hcount. destruct (Z.eqb_spec count 0) as [->|_]; [lia|].
    by rewrite Z.rem_mod_nonneg by lia.
  - intros ->. done.
Qed.

Lemma ring_hides_stacks_witness :
  Surface.index_array (g_surface (Filters.ring 2 (Api.dim [3; 4] initial)))
  = [0;0;0;0; 0;0;0;0; 4;3;6;7; 5;4;7;8; 0;0;0;0; 0;0;0;0]
  ∧ Surface.face_array (g_surface (Filters.ring 2 (Api.dim [3; 4] initial))) !! 2%nat
    = Some (Face.new [4; 3; 6; 7] (VBool true)).
Proof.
  split; [reflexivity|].
  assert (0 ≤ 1 < 4 - 1) as Hi by lia. assert (0 ≤ 0 < 3 - 1) as Hj by lia.
  assert (0 < 2) as Hc by lia.
  exact (proj1 (ring_hides_stacks 2 (Api.dim [3; 4] initial) 3 4 1 0
                  eq_refl eq_refl ltac:(intros sc; reflexivity) Hi Hj) Hc).
Defined.

Lemma one_minus_thrice (v : value) :
  one_minus (one_minus (one_minus v)) = one_minus v.
Proof. destruct v as [| |[]|n]; cbn; [done..|]. f_equal. lia. Qed.

(** [reverse] three times is [reverse] once, in every state whose mask
    holds no number of magnitude 2^53 or more (booleans, [undefined] and
    NaN are allowed): on such a mask every subtraction is exact. *)
Theorem reverse_thrice (p : Program) :
  Forall exact_bit (Filter.mask (g_filter p)) →
  Filters.reverse (Filters.reverse (Filters.reverse p)) = Filters.reverse p.
Proof.
  intros _.
  unfold Filters.reverse. cbn [g_filter g_surface globals Filter.mask Filter.set_mask].
  assert (one_minus <$> (one_minus <$> (one_minus <$> Filter.mask (g_filter p)))
          = one_minus <$> Filter.mask (g_filter p)) as ->.
  { rewrite <- !list_fmap_compose. apply list_fmap_ext.
    intros k v _. apply one_minus_thrice. }
  by rewrite !apply_overwrites.
Qed.

Lemma reverse_thrice_witness :
  let p := Api.list [0; 1; 5; -3] (Api.dim [3; 3] initial) in
  Filter.mask (g_filter (Filters.reverse (Filters.reverse (Filters.reverse p))))
  = [VNum 1; VNum 0; VNum (-4); VNum 4].
Proof.
  intros p.
  assert (Forall exact_bit (Filter.mask (g_filter p))) as Hexact.
  { repeat (constructor; [by intros n [= <-]|]). constructor. }
  rewrite (reverse_thrice p Hexact). reflexivity.
Defined.

(** What [reverse] does to face [k]: where the mask has 0, 1 or a boolean
    the face becomes visible if the mask hid it and hidden if the mask
    showed it; where the mask has no element the face is hidden, before
    and after. *)
Theorem reverse_visibility (p : Program) (k : nat) (face : Face.t) :
  Surface.face_array (g_surface p) !! k = Some face →
  ∃ w, Surface.face_array (g_surface (Filters.reverse p)) !! k
       = Some (Face.new (Face.index_array face) w)
       ∧ (∀ v, Filter.mask (g_filter p) !! k = Some v →
            (v = VNum 0 ∨ v = VNum 1 ∨ ∃ b, v = VBool b) →
            truthy w = negb (truthy v))
       ∧ (Filter.mask (g_filter p) !! k = None → truthy w = false).
Proof.
  intros Hk. unfold Filters.reverse. cbn [g_surface].
  rewrite apply_faces, list_lookup_imap, Hk. cbn [Filter.mask Filter.set_mask].
  eexists. split; [reflexivity|]. unfold js_get. rewrite list_lookup_fmap.
  split.
  - intros v -> [-> | [-> | [[] ->]]]; done.
  - by intros ->.
Qed.

Lemma reverse_visibility_witness :
  let p := Filters.ring 2 (Api.dim [3; 4] initial) in
  Surface.index_array (g_surface (Filters.reverse p))
  = [1;0;3;4; 2;1;4;5; 0;0;0;0; 0;0;0;0; 7;6;9;10; 8;7;10;11]
  ∧ ∃ w, Surface.face_array (g_surface (Filters.reverse p)) !! 2%nat
         = Some (Face.new [4; 3; 6; 7] w)
         ∧ truthy w = false.
Proof.
  intros p. split; [reflexivity|].
  destruct (reverse_visibility p 2 (Face.new [4; 3; 6; 7] (VBool true)) eq_refl)
    as (w & Hw & Hflag & _).
  exists w. split; [exact Hw|].
  exact (Hflag (VBool true) eq_refl (or_intror (or_intror (ex_intro _ true eq_refl)))).
Defined.

(** * Sessions *)

Lemma generate_well_formed (this : Surface.t) (sc : Scope) :
  0 < (Surface.dim this).1 → 0 < (Surface.dim this).2 →
  Surface.draw_mode this = QUAD ∨ Surface.draw_mode this = TRI →
  well_formed (Surface.generate this sc).1.
Proof.
  intros Hc Hr Hmode. destruct (generate_keeps this sc) as [Hdim Hm].
  unfold well_formed. rewrite Hdim, Hm.
  split_and!; [done|done|done|]. right. apply generate_generated.
Qed.

Lemma apply_well_formed (filter : Filter.t) (surface : Surface.t) :
  well_formed surface → well_formed (Filter.apply filter surface).
Proof.
  intros (Hc & Hr & Hmode & Hfaces). split_and!; [done|done|done|].
  destruct Hfaces as [Hnil|Hgen]; [left|right].
  - by rewrite apply_faces, Hnil.
  - by apply generated_apply.
Qed.

Lemma handle_well_formed (m : message) (p : Program) :
  well_formed (g_surface p) → well_formed (g_surface (handle m p)).
Proof.
  intros Hwf.
  destruct (filter_message m) eqn:Hm.
  { rewrite (proj1 (filter_message_surface m p Hm)). by apply apply_well_formed. }
  destruct Hwf as (Hc & Hr & Hmode & Hfaces).
  destruct m as [|a|mode| | | | |]; try done; cbn [handle].
  - unfold Api.bang. by destruct (g_draw p).
  - unfold Api.dim. destruct a as [|a0 [|a1 [|a2 a]]]; try done.
    destruct ((0 <? a0) && (0 <? a1)) eqn:Hguard; [|done].
    apply andb_true_iff in Hguard as [H0 H1].
    pose proof (generate_well_formed (Surface.set_dim (a0, a1) (g_surface p))
                  (globals p)) as Hgen.
    destruct (Surface.generate _ _) as [surface sc]. cbn [g_surface fst] in *.
    apply Hgen; cbn [Surface.set_dim Surface.dim Surface.draw_mode fst snd]; [lia..|done].
  - unfold Api.draw_mode.
    destruct (bool_decide (mode = "quads") || bool_decide (mode = "triangles"));
      [|done].
    pose proof (generate_well_formed
                  (Surface.set_draw_mode
                     (if bool_decide (mode = "quads") then QUAD else TRI)
                     (g_surface p)) (globals p)) as Hgen.
    destruct (Surface.generate _ _) as [surface sc]. cbn [g_surface fst] in *.
    apply Hgen; cbn [Surface.set_draw_mode Surface.dim Surface.draw_mode]; [done..|].
    destruct (bool_decide _); [by left|by right].
Qed.

Lemma run_snoc (ms : list message) (m : message) :
  run (ms ++ [m]) = handle m (run ms).
Proof. unfold run. by rewrite foldl_snoc. Qed.

Lemma run_well_formed (ms : list message) : well_formed (g_surface (run ms)).
Proof.
  induction ms as [|m ms IH] using rev_ind.
  - unfold well_formed. cbn. split_and!; [lia|lia|by left|by left].
  - rewrite run_snoc. by apply handle_well_formed.
Qed.

Lemma well_formed_length (surface : Surface.t) :
  well_formed surface →
  Z.of_nat (length (Surface.index_array surface))
  = Surface.face_count surface * Surface.draw_mode surface.
Proof.
  intros (_ & _ & Hmode & [Hnil|Hgen]).
  - unfold Surface.index_array, Surface.face_count. by rewrite Hnil.
  - rewrite index_array_length by done. unfold Surface.face_count, width.
    destruct Hmode as [-> | ->]; unfold QUAD, TRI; cbn; lia.
Qed.

(** Whatever messages the object has received since it was loaded: both
    dimensions are positive, the draw mode is 4 or 3, and the index array
    has [face_count() * draw_mode] elements. *)
Theorem session_index_array_length (ms : list message) :
  let surface := g_surface (run ms) in
  0 < (Surface.dim surface).1 ∧ 0 < (Surface.dim surface).2
  ∧ (Surface.draw_mode surface = QUAD ∨ Surface.draw_mode surface = TRI)
  ∧ Z.of_nat (length (Surface.index_array surface))
    = Surface.face_count surface * Surface.draw_mode surface.
Proof.
  intros surface. pose proof (run_well_formed ms) as Hwf.
  pose proof (well_formed_length _ Hwf) as Hlen.
  destruct Hwf as (Hc & Hr & Hmode & _). done.
Qed.

(** The matrix built from the surface, after any messages: it has one
    plane of type long, [face_count() * draw_mode] columns and one row,
    and column [k] is written once, in order, with element [k] of the
    index array. *)
Theorem session_matrix (ms : list message) :
  let surface := g_surface (run ms) in
  let m := Surface.matrix surface in
  jit_planecount m = 1 ∧ jit_type m = "long"
  ∧ jit_dim m = (Surface.face_count surface * Surface.draw_mode surface, 1)
  ∧ (λ c, c.1.1) <$> jit_cells m = seqZ 0 (jit_dim m).1
  ∧ (∀ k x y v, jit_cells m !! k = Some (x, y, v) →
       x = Z.of_nat k ∧ y = 0 ∧ Surface.index_array surface !! k = Some v).
Proof.
  intros surface m.
  pose proof (well_formed_length _ (run_well_formed ms)) as Hlen. fold surface in Hlen.
  split_and!; [done|done| | |].
  - unfold m, Surface.matrix. cbn [jit_dim]. by rewrite Hlen.
  - unfold m, Surface.matrix. cbn [jit_dim jit_cells fst].
    generalize (Surface.index_array surface). intros l.
    apply list_eq. intros k. rewrite list_lookup_fmap, list_lookup_imap.
    destruct (l !! k) as [v|] eqn:Hk; cbn.
    + apply lookup_lt_Some in Hk. rewrite lookup_seqZ_lt by lia. f_equal; lia.
    + apply lookup_ge_None in Hk. by rewrite lookup_seqZ_ge by lia.
  - intros k x y v. unfold m, Surface.matrix. cbn [jit_cells].
    rewrite list_lookup_imap.
    destruct (Surface.index_array surface !! k) as [v'|]; [|done].
    by intros [= <- <- <-].
Qed.

(** A bang after a message that sets a mask sends the matrix and then the
    face count; a second bang sends the face count only and changes
    nothing, and neither bang changes the surface or the mask. *)
Theorem bang_after_filter (m : message) (p : Program) :
  filter_message m = true →
  let p' := handle m p in
  let first := Api.bang p' in
  let second := Api.bang first.2 in
  first.1 = [Outlet0_jit_matrix (Surface.matrix (g_surface p'));
             Outlet1 (Surface.face_count (g_surface p))]
  ∧ second.1 = [Outlet1 (Surface.face_count (g_surface p))]
  ∧ second.2 = first.2
  ∧ g_surface first.2 = g_surface p' ∧ g_filter first.2 = g_filter p'.
Proof.
  intros Hm p' first second.
  destruct (filter_message_surface m p Hm) as [Hs Hd]. fold p' in Hs, Hd.
  assert (Surface.face_count (g_surface p') = Surface.face_count (g_surface p)) as Hc.
  { rewrite Hs. apply apply_face_count. }
  unfold second, first, Api.bang. rewrite Hd. cbn [fst snd g_draw g_surface g_filter].
  by rewrite Hc.
Qed.

Lemma bang_after_filter_witness :
  (Api.bang (Api.list [0; 1; 0; 1] (Api.dim [3; 3] initial))).1
  = [Outlet0_jit_matrix
       {| jit_planecount := 1; jit_type := "long"; jit_dim := (16, 1);
          jit_cells := [(0,0,0); (1,0,0); (2,0,0); (3,0,0);
                        (4,0,2); (5,0,1); (6,0,4); (7,0,5);
                        (8,0,0); (9,0,0); (10,0,0); (11,0,0);
                        (12,0,5); (13,0,4); (14,0,7); (15,0,8)] |};
     Outlet1 4].
Proof.
  exact (proj1 (bang_after_filter (List [0; 1; 0; 1]) (Api.dim [3; 3] initial) eq_refl)).
Defined.

Lemma lookup_near_order cols rows i j :
  0 ≤ i < rows - 1 → 0 ≤ j < cols - 1 →
  near_order cols rows !! Z.to_nat (i * (cols - 1) + j) = Some (i, j).
Proof. intros Hi Hj. by apply (lookup_grid_up (λ i j, (i, j))). Qed.

Lemma lookup_far_order cols rows i j :
  1 ≤ i ≤ rows - 1 → 2 ≤ j ≤ cols →
  far_order cols rows !! Z.to_nat ((rows - 1 - i) * (cols - 1) + (cols - j))
  = Some (i, j).
Proof.
  intros Hi Hj.
  replace ((rows - 1 - i) * (cols - 1) + (cols - j))
    with ((1 + (rows - 1) - 1 - i) * (cols - 1) + (2 + (cols - 1) - 1 - j)) by lia.
  apply (lookup_grid_down (λ i j, (i, j))); lia.
Qed.

(** [ring] in draw mode TRI, on a generated face array: the two triangles
    of a cell are not filtered alike.  For the cell of row [r] and column
    [c], the triangle of the near-to-far pass is shown when [r] is not a
    multiple of [count], the one of the far-to-near pass when [r + 1] is
    not, because the second pass counts [i] from [rows - 1] down to 1. *)
Theorem ring_triangles_offset (count : Z) (p : Program) (cols rows r c : Z) :
  Surface.dim (g_surface p) = (cols, rows) →
  Surface.draw_mode (g_surface p) = TRI →
  generated (g_surface p) →
  0 < count → 0 ≤ r < rows - 1 → 0 ≤ c < cols - 1 →
  let faces := Surface.face_array (g_surface (Filters.ring count p)) in
  let n := (rows - 1) * (cols - 1) in
  faces !! Z.to_nat (r * (cols - 1) + c)
  = Some (Face.new [vertex cols r (c + 1); vertex cols (r + 1) c;
                    vertex cols (r + 1) (c + 1)]
            (VBool (0 <? r `mod` count)))
  ∧ faces !! Z.to_nat (n + (rows - 2 - r) * (cols - 1) + c)
    = Some (Face.new [vertex cols r c; vertex cols (r + 1) c; vertex cols r (c + 1)]
              (VBool (0 <? (r + 1) `mod` count))).
Proof.
  intros Hdim Hmode Hgen Hcount Hr Hc faces n.
  set (f := λ sc : Scope,
         match js_rem (var_i sc) count with
         | Some r => VBool (0 <? r)
         | None => VBool false
         end).
  assert (∀ i, 0 ≤ i → f (at_cell (i, c)) = VBool (0 <? i `mod` count)
               ∧ ∀ j, f (at_cell (i, j)) = f (at_cell (i, c))) as Hf.
  { intros i Hi. unfold f, js_rem. cbn [at_cell var_i fst].
    destruct (Z.eqb_spec count 0) as [->|_]; [lia|].
    by rewrite Z.rem_mod_nonneg by lia. }
  pose proof (generated_indices _ cols rows Hdim Hgen) as Hidx.
  rewrite Hmode in Hidx. cbn [Z.eqb Pos.eqb QUAD TRI] in Hidx.
  assert (length (near_order cols rows) = Z.to_nat n) as Hlen.
  { rewrite length_near_order. unfold n. nia. }
  assert (∀ k, faces !! k
               = (λ face, Face.new (Face.index_array face)
                            (default VUndef (f <$> ordered_calls (g_surface p) !! k)))
                 <$> Surface.face_array (g_surface p) !! k) as Hfaces.
  { intros k. unfold faces, Filters.ring.
    rewrite (proj1 (generate_msg_surface _ _ _)), apply_faces, list_lookup_imap.
    rewrite (generate_msg_pure f) by done. cbn [truthy].
    unfold js_get. by rewrite list_lookup_fmap. }
  assert (ordered_calls (g_surface p)
          = (at_cell <$> near_order cols rows) ++ (at_cell <$> far_order cols rows))
    as Hcalls.
  { unfold ordered_calls. by rewrite Hdim, Hmode. }
  split.
  - rewrite Hfaces, Hcalls.
    apply (f_equal (.!! Z.to_nat (r * (cols - 1) + c))) in Hidx.
    rewrite lookup_app_l in Hidx by (rewrite length_fmap, Hlen; unfold n; nia).
    rewrite lookup_app_l by (rewrite length_fmap, Hlen; unfold n; nia).
    rewrite !list_lookup_fmap, lookup_near_order in Hidx by lia.
    rewrite !list_lookup_fmap, lookup_near_order by lia.
    destruct (Surface.face_array (g_surface p) !! _) as [face0|]; [|done].
    injection Hidx as Hidx. cbn [fmap option_fmap option_map default].
    rewrite Hidx, (proj1 (Hf r ltac:(lia))).
    unfold tri_near_indices, vertex. cbn. do 3 f_equal; [lia|].
    f_equal; [lia|]. f_equal. lia.
  - rewrite Hfaces, Hcalls.
    apply (f_equal (.!! Z.to_nat (n + (rows - 2 - r) * (cols - 1) + c))) in Hidx.
    rewrite lookup_app_r in Hidx by (rewrite length_fmap, Hlen; unfold n; nia).
    rewrite lookup_app_r by (rewrite length_fmap, Hlen; unfold n; nia).
    rewrite !length_fmap, Hlen in Hidx. rewrite !length_fmap, Hlen.
    replace (Z.to_nat (n + (rows - 2 - r) * (cols - 1) + c) - Z.to_nat n)%nat
      with (Z.to_nat ((rows - 1 - (r + 1)) * (cols - 1) + (cols - (cols - c))))
      in Hidx by (unfold n; nia).
    replace (Z.to_nat (n + (rows - 2 - r) * (cols - 1) + c) - Z.to_nat n)%nat
      with (Z.to_nat ((rows - 1 - (r + 1)) * (cols - 1) + (cols - (cols - c))))
      by (unfold n; nia).
    rewrite !list_lookup_fmap, lookup_far_order in Hidx by lia.
    rewrite !list_lookup_fmap, lookup_far_order by lia.
    destruct (Surface.face_array (g_surface p) !! _) as [face0|]; [|done].
    injection Hidx as Hidx. cbn [fmap option_fmap option_map default].
    destruct (Hf (r + 1) ltac:(lia)) as [Hv Hj]. rewrite Hidx, Hj, Hv.
    unfold tri_far_indices, vertex. cbn. do 3 f_equal; [lia|].
    f_equal; [lia|]. f_equal. lia.
Qed.

Lemma ring_triangles_offset_witness :
  let faces :=
    Surface.face_array
      (g_surface (Filters.ring 2 (Api.dim [3; 3] (Api.draw_mode "triangles" initial)))) in
  faces !! 0%nat = Some (Face.new [1; 3; 4] (VBool false))
  ∧ faces !! 6%nat = Some (Face.new [0; 3; 1] (VBool true)).
Proof.
  assert (0 < 2) as Hc by lia. assert (0 ≤ 0 < 3 - 1) as H by lia.
  exact (ring_triangles_offset 2 (Api.dim [3; 3] (Api.draw_mode "triangles" initial))
           3 3 0 0 eq_refl eq_refl ltac:(intros sc; reflexivity) Hc H H).
Defined.

(** A list message shows face [k] when element [k] of the list is any
    number other than 0, and hides it when the element is 0 or missing:
    the index array has the face's tuple in the first case and zeros in
    the second. *)
Theorem list_message_index_array (a : list Z) (p : Program) :
  let surface := g_surface p in
  let zeros := if Surface.draw_mode surface =? QUAD then [0; 0; 0; 0] else [0; 0; 0] in
  Surface.index_array (g_surface (Api.list a p))
  = mjoin (imap (λ k face,
                   match a !! k with
                   | Some n => if n =? 0 then zeros else Face.index_array face
                   | None => zeros
                   end) (Surface.face_array surface)).
Proof.
  intros surface zeros. unfold Api.list. cbn [g_surface].
  unfold Surface.index_array. rewrite apply_faces, fmap_imap. f_equal.
  apply imap_ext. intros k face _.
  cbn [compose Face.visible Face.index_array Filter.apply Surface.draw_mode
       Surface.set_face_array Filter.mask Filter.set_mask].
  unfold js_get. rewrite list_lookup_fmap.
  destruct (a !! k) as [n|]; [|done]. cbn. by destruct (n =? 0).
Qed.
